(** * Dronetic: the quantum oscillator bank and the drone synth mixer

    A shallow embedding of [DroneOscSection] and of the play-state and mixing
    code of [DroneSynth] from Arduino/Dronetic/Dronetic/Dronetic.ino.

    Machine data is kept as [Z] with the wrap-around of the C types written
    out: [byte] is unsigned 8-bit, [char] is signed 8-bit (AVR), [word] and
    the [Word] union are unsigned 16-bit (little endian: [_.lsb] is the low
    byte, [_.msb] the high byte).  The per-slot C arrays of size [MAX_OSC]
    are lists of length 4 read with [nth] and written with [upd]. *)

From Stdlib Require Import ZArith List Lia Bool.
Import ListNotations.
Open Scope Z_scope.

(** ** Machine integers *)

Definition byteOf (z : Z) : Z := z mod 256.
Definition charOf (z : Z) : Z := (z + 128) mod 256 - 128.
Definition wordOf (z : Z) : Z := z mod 65536.

(** the two bytes of the [Word] union *)
Definition lsb (w : Z) : Z := Z.land w 255.
Definition msb (w : Z) : Z := Z.land (Z.shiftr w 8) 255.

(** ** C arrays *)

Definition get {A} (d : A) (l : list A) (i : nat) : A := nth i l d.

Fixpoint upd {A} (l : list A) (i : nat) (v : A) : list A :=
  match l, i with
  | [], _ => []
  | _ :: r, O => v :: r
  | x :: r, S j => x :: upd r j v
  end.

(** [a[i][k]] for a row [a[i]] of a [[2]] array, [k] being 0 or 1 *)
Definition sel (p : Z * Z) (k : Z) : Z := if k =? 0 then fst p else snd p.

(** ** The note period table [NotePeriods] *)

Definition NotePeriods : list Z :=
  [ 360; 346; 320; 300; 288; 270; 256; 240; 225; 214; 200; 192;
    180; 173; 160; 150; 144; 135; 128; 120; 113; 107; 100; 96;
    90; 86; 80; 75; 72; 67; 64; 60; 56; 54; 50; 48;
    45; 43; 40; 38; 36; 34; 32; 30; 28; 27; 25; 24 ].

Definition MAX_OSC : nat := 4.
Definition numNotes : Z := 48.
Definition NoNote : Z := 255.

(** ** The oscillator section *)

Record DroneOscSection := mkOsc {
  numOsc : Z;                 (* number of square-wave osc in section *)
  curOsc : Z;                 (* current osc # *)
  ampOsc : Z;                 (* amplitude of oscillators *)
  edgIdx : list Z;            (* index into current edge *)
  edgeDC : list Z;            (* downcounter to next edge transition *)
  edgLen : list (Z * Z);      (* edge lengths *)
  edgVal : list (Z * Z);      (* edge values *)
  note   : list Z;            (* current note *)
  pW     : Z;                 (* pulse width: 1 to 128 (128=50%) *)
  freeze : bool               (* if true freeze current notes *)
}.

Definition set_edgIdx s l := mkOsc (numOsc s) (curOsc s) (ampOsc s) l (edgeDC s)
  (edgLen s) (edgVal s) (note s) (pW s) (freeze s).
Definition set_edgeDC s l := mkOsc (numOsc s) (curOsc s) (ampOsc s) (edgIdx s) l
  (edgLen s) (edgVal s) (note s) (pW s) (freeze s).
Definition set_edgLen s l := mkOsc (numOsc s) (curOsc s) (ampOsc s) (edgIdx s)
  (edgeDC s) l (edgVal s) (note s) (pW s) (freeze s).
Definition set_edgVal s l := mkOsc (numOsc s) (curOsc s) (ampOsc s) (edgIdx s)
  (edgeDC s) (edgLen s) l (note s) (pW s) (freeze s).
Definition set_note s l := mkOsc (numOsc s) (curOsc s) (ampOsc s) (edgIdx s)
  (edgeDC s) (edgLen s) (edgVal s) l (pW s) (freeze s).
Definition set_pW s x := mkOsc (numOsc s) (curOsc s) (ampOsc s) (edgIdx s)
  (edgeDC s) (edgLen s) (edgVal s) (note s) x (freeze s).

(** readers for one slot *)
Definition idxOf s t := get 0 (edgIdx s) t.
Definition dcOf s t := get 0 (edgeDC s) t.
Definition lenOf s t := get (0, 0) (edgLen s) t.
Definition valOf s t := get (0, 0) (edgVal s) t.
Definition noteOf s t := get 0 (note s) t.
Definition periodOf s t := fst (lenOf s t) + snd (lenOf s t).

(** [setSteps( t, n0, n1 )] *)
Definition setSteps (s : DroneOscSection) (t : nat) (n0 n1 : Z) : DroneOscSection :=
  let s := set_edgLen s (upd (edgLen s) t (n0, n1)) in
  let v1 := if (n0 =? 0) || (n1 =? 0) then ampOsc s else charOf (- ampOsc s) in
  set_edgVal s (upd (edgVal s) t (fst (valOf s t), v1)).

(** [calcEdges( t, period )]: note that the [period <= 1] branch does not
    return, the rest of the body runs after it. *)
Definition calcEdges (s : DroneOscSection) (t : nat) (period : Z) : DroneOscSection :=
  let s := if period <=? 1 then setSteps s t 0 0 else s in
  let posSteps := wordOf period in
  let posSteps := wordOf (posSteps * pW s) in
  let posSteps := msb posSteps in
  let posSteps := if posSteps =? 0 then 1 else posSteps in
  let negSteps := wordOf (period - posSteps) in
  let '(posSteps, negSteps) :=
    if negSteps >? 255
    then (wordOf (posSteps + (negSteps - 255)), 255)
    else (posSteps, negSteps) in
  setSteps s t (lsb posSteps) (lsb negSteps).

(** [setPW( x )] *)
Definition setPW (s : DroneOscSection) (x : Z) : DroneOscSection :=
  let x := if x <? 1 then 1 else x in
  let x := if x >? 128 then 128 else x in
  let s := set_pW s x in
  fold_left (fun s i => calcEdges s i (periodOf s i)) (seq 0 (Z.to_nat (numOsc s))) s.

(** [setNumOsc( n )] *)
Definition setNumOsc (s : DroneOscSection) (n : Z) : DroneOscSection :=
  let n := if n =? 0 then 1 else n in
  let n := if n >? Z.of_nat MAX_OSC then Z.of_nat MAX_OSC else n in
  let cur := if curOsc s >=? n then n - 1 else curOsc s in
  let amp := 127 / n in
  let s := mkOsc n cur amp (edgIdx s) (edgeDC s) (edgLen s) (edgVal s)
             (note s) (pW s) (freeze s) in
  fold_left (fun s i =>
      let '(l0, l1) := lenOf s i in
      let v1 := if (l0 =? 0) || (l1 =? 0) then amp else charOf (- amp) in
      set_edgVal s (upd (edgVal s) i (amp, v1)))
    (seq 0 (Z.to_nat n)) s.

(** [while ( noteNum >= numNotes ) noteNum -= 12;]  Each round lowers the
    byte [noteNum] by 12, so [noteNum] rounds are always enough. *)
Fixpoint wrapLoop (fuel : nat) (noteNum : Z) : Z :=
  match fuel with
  | O => noteNum
  | S f => if noteNum >=? numNotes then wrapLoop f (noteNum - 12) else noteNum
  end.

Definition wrapNote (noteNum : Z) : Z := wrapLoop (Z.to_nat noteNum) noteNum.

(** the phase lock loop of [setNote]: for each [i < numOsc], [i <> t], with
    the same note as [t], copy [edgIdx[i]] and [edgeDC[i]] into slot [t] *)
Definition lockStep (t : nat) (s : DroneOscSection) (i : nat) : DroneOscSection :=
  if Nat.eqb t i then s
  else if negb (noteOf s t =? noteOf s i) then s
  else set_edgeDC (set_edgIdx s (upd (edgIdx s) t (idxOf s i)))
                  (upd (edgeDC s) t (dcOf s i)).

Definition phaseLock (s : DroneOscSection) (t : nat) : DroneOscSection :=
  fold_left (lockStep t) (seq 0 (Z.to_nat (numOsc s))) s.

(** [setNote( t, noteNum )] *)
Definition setNote (s : DroneOscSection) (t : nat) (noteNum : Z) : DroneOscSection :=
  if freeze s then s
  else if noteNum =? NoNote then
    let s := set_edgIdx s (upd (edgIdx s) t 0) in
    let s := setSteps s t 0 0 in
    set_note s (upd (note s) t NoNote)
  else
    let noteNum := wrapNote noteNum in
    let s := set_note s (upd (note s) t noteNum) in
    let s := calcEdges s t (nth (Z.to_nat noteNum) NotePeriods 0) in
    phaseLock s t.

(** one slot in one tick of [output]:
    [if ( --edgeDC[t] == 0 ) { edgIdx[t] ^= 1; edgeDC[t] = edgLen[t][edgIdx[t]]; }]
    followed by reading [edgVal[t][edgIdx[t]]] *)
Definition oscTick (s : DroneOscSection) (t : nat) : DroneOscSection * Z :=
  let dc := byteOf (dcOf s t - 1) in
  let s := set_edgeDC s (upd (edgeDC s) t dc) in
  let s := if dc =? 0 then
             let s := set_edgIdx s (upd (edgIdx s) t (Z.lxor (idxOf s t) 1)) in
             set_edgeDC s (upd (edgeDC s) t (sel (lenOf s t) (idxOf s t)))
           else s in
  (s, sel (valOf s t) (idxOf s t)).

(** one tick of [output]: [oscTick] on every slot [t < numOsc] in turn; the
    values read, in slot order, are summed into the [char] [outVal] *)
Definition slotStep (acc : DroneOscSection * list Z) (t : nat) : DroneOscSection * list Z :=
  let '(s, vs) := acc in
  let '(s, v) := oscTick s t in (s, vs ++ [v]).

Definition slotTicks (s : DroneOscSection) : DroneOscSection * list Z :=
  fold_left slotStep (seq 0 (Z.to_nat (numOsc s))) (s, []).

Definition sampleTick (s : DroneOscSection) : DroneOscSection * Z :=
  let '(s, vs) := slotTicks s in
  (s, fold_left (fun outVal v => charOf (outVal + v)) vs 0).

(** the section after one tick of [output] *)
Definition tickState (s : DroneOscSection) : DroneOscSection := fst (sampleTick s).

(** [output( buf )] writes [audioBufSz] ticks; [audioBufSz] is a constant of
    the ArduTouch framework, a parameter here *)
Fixpoint output (audioBufSz : nat) (s : DroneOscSection) : DroneOscSection * list Z :=
  match audioBufSz with
  | O => (s, [])
  | S n => let '(s, v) := sampleTick s in
           let '(s, vs) := output n s in (s, v :: vs)
  end.

(** [setPhase( t, phase )].  The normalisation loop
    [while ( phase >= period ) phase -= period;] is given by its big-step
    semantics [normLoop phase period phase'], which has no derivation when
    the loop does not terminate. *)
Inductive normLoop : Z -> Z -> Z -> Prop :=
| normLoop_done phase period :
    phase < period -> normLoop phase period phase
| normLoop_step phase period r :
    phase >= period -> normLoop (wordOf (phase - period)) period r ->
    normLoop phase period r.

(** the rest of the body of [setPhase], after the loop *)
Definition setPhaseTail (s : DroneOscSection) (t : nat) (phase : Z) : DroneOscSection :=
  let period := periodOf s t in
  if phase <? fst (lenOf s t)
  then set_edgeDC (set_edgIdx s (upd (edgIdx s) t 0))
                  (upd (edgeDC s) t (byteOf (fst (lenOf s t) - phase)))
  else set_edgeDC (set_edgIdx s (upd (edgIdx s) t 1))
                  (upd (edgeDC s) t (byteOf (period - phase))).

Definition setPhase (s : DroneOscSection) (t : nat) (phase : Z) (s' : DroneOscSection) : Prop :=
  exists phase', normLoop phase (wordOf (periodOf s t)) phase' /\
                 s' = setPhaseTail s t phase'.

(** ** The drone synth: play state, fades and mixing *)

Inductive playState := STOPPED | FADE_IN | PLAYING | FADE_OUT.

Definition playState_eqb (a b : playState) : bool :=
  match a, b with
  | STOPPED, STOPPED | FADE_IN, FADE_IN | PLAYING, PLAYING
  | FADE_OUT, FADE_OUT => true
  | _, _ => false
  end.

Record DroneSynth := mkSynth {
  playStatus : playState;
  vol : Z                     (* master volume, a byte of the framework *)
}.

(** Modelled from the spec: [setVol] and [vol] belong to the ArduTouch
    framework ([Synth]/[Control]), which is not in this repository; the
    spec's "volume increments by 1" / "decrements by 1" reads as: [setVol]
    stores its (byte) argument as [vol].  [super::dynamics()] updates the
    voices and leaves [vol] and [playStatus] alone. *)
Definition setVol (sy : DroneSynth) (x : Z) : DroneSynth :=
  mkSynth (playStatus sy) (byteOf x).

Definition set_playStatus (sy : DroneSynth) (p : playState) : DroneSynth :=
  mkSynth p (vol sy).

(** [DroneSynth::dynamics()] *)
Definition dynamics (sy : DroneSynth) : DroneSynth :=
  match playStatus sy with
  | FADE_IN => if vol sy =? 255 then set_playStatus sy PLAYING
               else setVol sy (vol sy + 1)
  | FADE_OUT => if vol sy =? 0 then set_playStatus sy STOPPED
                else setVol sy (vol sy - 1)
  | _ => sy
  end.

(** [DroneSynth::start()] *)
Definition start (sy : DroneSynth) : DroneSynth :=
  if negb (playState_eqb (playStatus sy) PLAYING)
  then set_playStatus sy FADE_IN else sy.

(** [DroneSynth::stop()] *)
Definition stop (sy : DroneSynth) : DroneSynth :=
  if negb (playState_eqb (playStatus sy) STOPPED)
  then set_playStatus sy FADE_OUT else sy.

(** one channel of the mixing loop of [DroneSynth::output]:
    [sum = buf[i]; sum *= 3; sum += leadbuf[i]; buf[i] = sum >> 2;] *)
Definition mixSample (d l : Z) : Z :=
  let sum := d in
  let sum := sum * 3 in
  let sum := sum + l in
  charOf (Z.shiftr sum 2).

Definition mixOutput (bufL bufR leadbuf : list Z) : list Z * list Z :=
  (map (fun '(d, l) => mixSample d l) (combine bufL leadbuf),
   map (fun '(d, l) => mixSample d l) (combine bufR leadbuf)).

Fixpoint iter {A} (n : nat) (f : A -> A) (x : A) : A :=
  match n with O => x | S k => iter k f (f x) end.

(** a section whose arrays all have [MAX_OSC] entries *)
Definition wf (s : DroneOscSection) : Prop :=
  length (edgIdx s) = MAX_OSC /\ length (edgeDC s) = MAX_OSC /\
  length (edgLen s) = MAX_OSC /\ length (edgVal s) = MAX_OSC /\
  length (note s) = MAX_OSC.

(** the section after power-up (static storage is zeroed) and the reset
    command ['!'] of [DroneOscSection::charEv]: [pW = 128], [setNumOsc(1)],
    [setNote( i, NoNote )] for every slot *)
Definition zeroOsc : DroneOscSection :=
  mkOsc 0 0 0 [0; 0; 0; 0] [0; 0; 0; 0] [(0, 0); (0, 0); (0, 0); (0, 0)]
    [(0, 0); (0, 0); (0, 0); (0, 0)] [0; 0; 0; 0] 0 false.

Definition resetOsc (s : DroneOscSection) : DroneOscSection :=
  let s := mkOsc (numOsc s) (curOsc s) (ampOsc s) (edgIdx s) (edgeDC s)
             (edgLen s) (edgVal s) (note s) 128 false in
  let s := setNumOsc s 1 in
  fold_left (fun s i => setNote s i NoNote) (seq 0 MAX_OSC) s.

(** reference for the note wrap of [setNote]: a note inside the table is
    kept, a note above it goes to the top octave (notes 36..47) at the same
    position in the octave *)
Definition octaveReduce (n : Z) : Z :=
  if n <? numNotes then n else 36 + n mod 12.

(** the edge state of a slot: [edgIdx[t]] and [edgeDC[t]] *)
Definition phaseOf (s : DroneOscSection) (t : nat) : Z * Z := (idxOf s t, dcOf s t).

(** slot [i] is one the phase lock loop of [setNote( t, .. )] copies from *)
Definition lockMatch (t : nat) (s : DroneOscSection) (i : nat) : bool :=
  negb (Nat.eqb t i) && (noteOf s t =? noteOf s i).

(** the start of a slot's waveform, the edge state [setPhase( t, 0 )]
    gives: the start of edge 0, or of edge 1 when edge 0 is empty *)
Definition edgeStart (s : DroneOscSection) (t : nat) : Z * Z :=
  if fst (lenOf s t) =? 0 then (1, snd (lenOf s t)) else (0, fst (lenOf s t)).

Definition atEdgeStart (s : DroneOscSection) (t : nat) : DroneOscSection :=
  set_edgeDC (set_edgIdx s (upd (edgIdx s) t (fst (edgeStart s t))))
             (upd (edgeDC s) t (snd (edgeStart s t))).

(** [k] samples of slot [t] as [output] plays them *)
Definition runSlot (s : DroneOscSection) (t : nat) (k : nat) : DroneOscSection :=
  iter k (fun s => fst (oscTick s t)) s.

(** ** Further operations of [DroneOscSection] and [DroneSynth] *)

(** [setCurOsc( ith )] *)
Definition setCurOsc (s : DroneOscSection) (ith : Z) : DroneOscSection :=
  let ith := if ith >=? numOsc s then byteOf (numOsc s - 1) else ith in
  mkOsc (numOsc s) ith (ampOsc s) (edgIdx s) (edgeDC s) (edgLen s) (edgVal s)
    (note s) (pW s) (freeze s).

(** [getPhase( t )]:
    [phase = edgIdx[t] ? 0 : edgLen[t][0]; phase += edgLen[t][edgIdx[t]] - edgeDC[t];]
    in [word] arithmetic *)
Definition getPhase (s : DroneOscSection) (t : nat) : Z :=
  let phase := if negb (idxOf s t =? 0) then 0 else fst (lenOf s t) in
  wordOf (phase + (sel (lenOf s t) (idxOf s t) - dcOf s t)).


(** the [BUT0_DTAP] branch of [DroneSynth::evHandler] *)
Definition toggleDrone (sy : DroneSynth) : DroneSynth :=
  if playState_eqb (playStatus sy) STOPPED || playState_eqb (playStatus sy) FADE_OUT
  then start sy else stop sy.

(** the edge state one [output] tick gives a slot of edge lengths [len]
    (the slot part of [oscTick]) *)
Definition tickPh (len : Z * Z) (ph : Z * Z) : Z * Z :=
  let dc := byteOf (snd ph - 1) in
  if dc =? 0 then (Z.lxor (fst ph) 1, sel len (Z.lxor (fst ph) 1)) else (fst ph, dc).

(** the edge state [r] samples into the square wave of edge lengths
    [l0], [l1] (what [setPhaseTail] writes for [r]) *)
Definition wavePhase (l0 l1 r : Z) : Z * Z :=
  if r <? l0 then (0, l0 - r) else (1, l0 + l1 - r).

(** the invariant [setNumOsc] sets up: one to [MAX_OSC] oscillators of
    amplitude [127 / numOsc], each active slot with edge values
    [ampOsc] / [-ampOsc], or [ampOsc] twice when an edge is empty *)
Definition edgeValsOK (s : DroneOscSection) : Prop :=
  forall i, (i < Z.to_nat (numOsc s))%nat ->
    valOf s i = (ampOsc s,
                 if (fst (lenOf s i) =? 0) || (snd (lenOf s i) =? 0)
                 then ampOsc s else charOf (- ampOsc s)).

Definition oscInv (s : DroneOscSection) : Prop :=
  wf s /\ 1 <= numOsc s <= Z.of_nat MAX_OSC /\ ampOsc s = 127 / numOsc s /\
  0 <= curOsc s < numOsc s /\ edgeValsOK s.

(** the value slot [t] adds to the sample of one [output] tick *)
Definition slotOut (s : DroneOscSection) (t : nat) : Z :=
  sel (valOf s t) (fst (tickPh (lenOf s t) (phaseOf s t))).

Definition set_freeze s b := mkOsc (numOsc s) (curOsc s) (ampOsc s) (edgIdx s)
  (edgeDC s) (edgLen s) (edgVal s) (note s) (pW s) b.

(** the events [DroneOscSection] handles: the console commands of
    [charEv] that change the section, and [output] *)
Inductive oscEvent :=
| EvSelect (ith : Z)          (* '0'..'3': setCurOsc( code - '0' ) *)
| EvFreeze (b : bool)         (* 'F': console.getBool( .., &freeze ) *)
| EvNote (inp : Z)            (* 'n': setNote( curOsc, inp ), inp a byte *)
| EvPhase (inp : Z)           (* 'p': setPhase( curOsc, inp ), inp an int >= 0 *)
| EvNumOsc (inp : Z)          (* 'N': setNumOsc( inp ), inp a byte *)
| EvPW (inp : Z)              (* 'P': setPW( inp ), inp a byte *)
| EvReset                     (* '!' *)
| EvOutput (audioBufSz : nat). (* output( buf ) *)

Inductive oscStep : DroneOscSection -> oscEvent -> DroneOscSection -> Prop :=
| step_select s ith : 0 <= ith <= 3 -> oscStep s (EvSelect ith) (setCurOsc s ith)
| step_freeze s b : oscStep s (EvFreeze b) (set_freeze s b)
| step_note s inp : 0 <= inp <= 255 ->
    oscStep s (EvNote inp) (setNote s (Z.to_nat (curOsc s)) inp)
| step_phase s inp s' : 0 <= inp <= 32767 -> setPhase s (Z.to_nat (curOsc s)) inp s' ->
    oscStep s (EvPhase inp) s'
| step_numOsc s inp : 0 <= inp <= 255 -> oscStep s (EvNumOsc inp) (setNumOsc s inp)
| step_pw s inp : 0 <= inp <= 255 -> oscStep s (EvPW inp) (setPW s inp)
| step_reset s : oscStep s EvReset (resetOsc s)
| step_output s n : oscStep s (EvOutput n) (fst (output n s)).

(** the sections a reset of a well-formed section leads to *)
Inductive oscReach : DroneOscSection -> Prop :=
| reach_reset s : wf s -> 0 <= curOsc s -> oscReach (resetOsc s)
| reach_step s e s' : oscReach s -> oscStep s e s' -> oscReach s'.

(** ** Array lemmas *)

Lemma length_upd {A} (l : list A) i v : length (upd l i v) = length l.
Proof. revert i; induction l as [|x r IH]; intros [|j]; simpl; auto. Qed.

Lemma get_upd_same {A} (d : A) l i v : (i < length l)%nat -> get d (upd l i v) i = v.
Proof.
  unfold get; revert i; induction l as [|x r IH]; intros [|j] H; simpl in *; try lia; auto.
  apply IH; lia.
Qed.

Lemma get_upd_other {A} (d : A) l i j v : i <> j -> get d (upd l i v) j = get d l j.
Proof.
  unfold get; revert i j; induction l as [|x r IH]; intros [|i] [|j] H; simpl; auto.
  - congruence.
Qed.

(** ** Machine integer lemmas *)

Lemma wordOf_id z : 0 <= z < 65536 -> wordOf z = z.
Proof. intros; unfold wordOf; apply Z.mod_small; lia. Qed.

Lemma byteOf_id z : 0 <= z < 256 -> byteOf z = z.
Proof. intros; unfold byteOf; apply Z.mod_small; lia. Qed.

Lemma lsb_mod z : lsb z = z mod 256.
Proof. unfold lsb; change 255 with (Z.ones 8); rewrite Z.land_ones; reflexivity || lia. Qed.

Lemma lsb_id z : 0 <= z < 256 -> lsb z = z.
Proof. intros; rewrite lsb_mod; apply Z.mod_small; lia. Qed.

Lemma msb_div w : 0 <= w < 65536 -> msb w = w / 256.
Proof.
  intros H; unfold msb; change 255 with (Z.ones 8); rewrite Z.land_ones by lia.
  rewrite Z.shiftr_div_pow2 by lia; change (2 ^ 8) with 256.
  apply Z.mod_small; split; [apply Z.div_pos | apply Z.div_lt_upper_bound]; lia.
Qed.

(** ** Slot-level lemmas of [setSteps] and [calcEdges] *)

Lemma setSteps_len s t t' n0 n1 :
  (t < length (edgLen s))%nat ->
  lenOf (setSteps s t n0 n1) t' = if Nat.eqb t t' then (n0, n1) else lenOf s t'.
Proof.
  intros H; unfold setSteps, lenOf; simpl.
  destruct (Nat.eqb_spec t t'); subst.
  - apply get_upd_same; auto.
  - apply get_upd_other; auto.
Qed.

Lemma setSteps_length s t n0 n1 :
  length (edgLen (setSteps s t n0 n1)) = length (edgLen s).
Proof. unfold setSteps; simpl; apply length_upd. Qed.

Lemma setSteps_pW s t n0 n1 : pW (setSteps s t n0 n1) = pW s.
Proof. reflexivity. Qed.

(** [calcEdges] for a period of at least 2 that two byte edges can hold *)
Lemma calcEdges_len_spec s t P :
  (t < length (edgLen s))%nat -> 2 <= P <= 510 -> 1 <= pW s <= 128 ->
  exists h l, lenOf (calcEdges s t P) t = (h, l) /\
    h + l = P /\ 1 <= h <= 255 /\ 0 <= l <= 255 /\
    h = (if P - Z.max 1 (P * pW s / 256) >? 255 then P - 255
         else Z.max 1 (P * pW s / 256)).
Proof.
  intros Ht HP Hpw; unfold calcEdges.
  replace (P <=? 1) with false by (symmetry; apply Z.leb_gt; lia).
  rewrite (wordOf_id P) by lia.
  rewrite (wordOf_id (P * pW s)) by nia.
  rewrite msb_div by nia.
  assert (Hd : 0 <= P * pW s / 256 <= P / 2).
  { split; [apply Z.div_pos; nia|].
    transitivity (P * 128 / (2 * 128)); [apply Z.div_le_mono; nia|].
    rewrite Z.div_mul_cancel_r by lia; lia. }
  assert (Hp : 1 <= Z.max 1 (P * pW s / 256) <= P / 2).
  { split; [lia|]. apply Z.max_lub; [apply Z.div_le_lower_bound|]; lia. }
  replace (if P * pW s / 256 =? 0 then 1 else P * pW s / 256)
    with (Z.max 1 (P * pW s / 256))
    by (destruct (Z.eqb_spec (P * pW s / 256) 0); lia).
  assert (P / 2 * 2 <= P) by (pose proof (Z.mul_div_le P 2); lia).
  rewrite (wordOf_id (P - Z.max 1 (P * pW s / 256))) by lia.
  destruct (Z.gtb_spec (P - Z.max 1 (P * pW s / 256)) 255).
  - rewrite wordOf_id by lia.
    rewrite setSteps_len by auto; rewrite Nat.eqb_refl.
    rewrite !lsb_id by lia.
    do 2 eexists; split; [reflexivity|]; lia.
  - rewrite setSteps_len by auto; rewrite Nat.eqb_refl.
    rewrite !lsb_id by lia.
    do 2 eexists; split; [reflexivity|]; lia.
Qed.

Lemma NotePeriods_bounds P : In P NotePeriods -> 24 <= P <= 360.
Proof.
  unfold NotePeriods; intros H; simpl in H.
  repeat (destruct H as [<-|H]; [lia|]); contradiction.
Qed.

(** [calcEdges] ends in one [setSteps] on slot [t] *)
Lemma calcEdges_shape s t P :
  exists a b, calcEdges s t P = setSteps (if P <=? 1 then setSteps s t 0 0 else s) t a b.
Proof.
  unfold calcEdges.
  destruct (_ >? 255); do 2 eexists; reflexivity.
Qed.

(** the fields other than [edgLen] and [edgVal] are left alone *)
Lemma calcEdges_frame s t P :
  edgIdx (calcEdges s t P) = edgIdx s /\ edgeDC (calcEdges s t P) = edgeDC s /\
  note (calcEdges s t P) = note s /\ numOsc (calcEdges s t P) = numOsc s /\
  pW (calcEdges s t P) = pW s /\ ampOsc (calcEdges s t P) = ampOsc s /\
  freeze (calcEdges s t P) = freeze s /\
  length (edgLen (calcEdges s t P)) = length (edgLen s).
Proof.
  destruct (calcEdges_shape s t P) as (a & b & ->).
  unfold setSteps; destruct (P <=? 1); simpl; rewrite ?length_upd; auto 10.
Qed.

(** [calcEdges] on slot [t] does not touch the edges of another slot *)
Lemma calcEdges_len_other s t t' P :
  (t < length (edgLen s))%nat -> t <> t' -> lenOf (calcEdges s t P) t' = lenOf s t'.
Proof.
  intros Ht Hne; destruct (calcEdges_shape s t P) as (a & b & ->).
  rewrite setSteps_len.
  - apply Nat.eqb_neq in Hne; rewrite Hne.
    destruct (P <=? 1); [|reflexivity].
    rewrite setSteps_len by auto; rewrite Hne; reflexivity.
  - destruct (P <=? 1); [rewrite setSteps_length|]; auto.
Qed.

(** C1: for every period of the note table and every pulse width in
    [1,128], [calcEdges] gives edges with [highSamples + lowSamples = P],
    [lowSamples <= 255] and [highSamples >= 1]; period 360 at pulse width
    128 gives 180 and 180. *)
Theorem calcEdges_table_edges s t P :
  (t < length (edgLen s))%nat -> In P NotePeriods -> 1 <= pW s <= 128 ->
  let '(highSamples, lowSamples) := lenOf (calcEdges s t P) t in
  highSamples + lowSamples = P /\ lowSamples <= 255 /\ 1 <= highSamples /\
  (P = 360 -> pW s = 128 -> highSamples = 180 /\ lowSamples = 180).
Proof.
  intros Ht HP Hpw.
  apply NotePeriods_bounds in HP.
  destruct (calcEdges_len_spec s t P Ht ltac:(lia) Hpw) as (h & l & -> & Hsum & Hh & Hl & Heq).
  refine (conj _ (conj _ (conj _ _))); try lia.
  intros -> Hp; rewrite Hp in Heq; vm_compute in Heq; lia.
Qed.

Lemma calcEdges_table_edges_witness :
  (0 < length (edgLen (resetOsc zeroOsc)))%nat /\ In 360 NotePeriods /\
  1 <= pW (resetOsc zeroOsc) <= 128 /\
  let '(highSamples, lowSamples) := lenOf (calcEdges (resetOsc zeroOsc) 0 360) 0 in
  highSamples + lowSamples = 360 /\ lowSamples <= 255 /\ 1 <= highSamples /\
  (360 = 360 -> pW (resetOsc zeroOsc) = 128 -> highSamples = 180 /\ lowSamples = 180).
Proof.
  refine (conj _ (conj _ (conj _ _))).
  - vm_compute; lia.
  - simpl; auto.
  - vm_compute; split; discriminate.
  - refine (calcEdges_table_edges (resetOsc zeroOsc) 0 360 _ _ _).
    + vm_compute; lia.
    + simpl; auto.
    + vm_compute; split; discriminate.
Defined.

(** C2 (the code misses it): a slot of period 0 or 1 is not left silent.
    [calcEdges] silences the slot with [setSteps( t, 0, 0 )] but does not
    return, and the rest of the body then installs edges 1 and 255 for
    period 0; so [setPW] on a silenced slot (edges 0 and 0) gives it a
    period of 256. *)
Theorem calcEdges_zero_period_not_silent :
  lenOf (calcEdges (resetOsc zeroOsc) 0 0) 0 = (1, 255) /\
  lenOf (calcEdges (resetOsc zeroOsc) 0 1) 0 = (1, 0) /\
  lenOf (resetOsc zeroOsc) 0 = (0, 0) /\
  lenOf (setPW (resetOsc zeroOsc) 64) 0 = (1, 255).
Proof. vm_compute; auto. Qed.

(** C3 (the code misses it): [setPW] does not keep the period of a
    silenced slot: slot 0 of a reset section has period 0 before
    [setPW(100)] and period 256 after it. *)
Theorem setPW_silent_slot_period :
  (0 < Z.to_nat (numOsc (resetOsc zeroOsc)))%nat /\
  periodOf (resetOsc zeroOsc) 0 = 0 /\
  periodOf (setPW (resetOsc zeroOsc) 100) 0 = 256 /\
  pW (setPW (resetOsc zeroOsc) 100) = 100.
Proof. vm_compute; auto. Qed.

(** ** The note wrap and the phase lock loop of [setNote] *)

Lemma wrapLoop_octaveReduce fuel n :
  0 <= n -> n < numNotes + 12 * Z.of_nat fuel -> wrapLoop fuel n = octaveReduce n.
Proof.
  unfold octaveReduce, numNotes.
  revert n; induction fuel as [|f IH]; intros n H0 H1; cbn [wrapLoop]; unfold numNotes.
  - destruct (Z.ltb_spec n 48); lia.
  - destruct (Z.geb_spec n 48).
    + rewrite IH by lia.
      destruct (Z.ltb_spec (n - 12) 48), (Z.ltb_spec n 48); try lia.
      * Z.div_mod_to_equations; lia.
      * Z.div_mod_to_equations; lia.
    + destruct (Z.ltb_spec n 48); lia.
Qed.

Lemma wrapNote_octaveReduce n : 0 <= n -> wrapNote n = octaveReduce n.
Proof.
  intros H; unfold wrapNote; apply wrapLoop_octaveReduce; unfold numNotes; lia.
Qed.

Lemma octaveReduce_range n :
  0 <= n -> 0 <= octaveReduce n < numNotes /\ octaveReduce n <= n /\
  (n - octaveReduce n) mod 12 = 0.
Proof.
  unfold octaveReduce, numNotes; intros H.
  destruct (Z.ltb_spec n 48).
  - rewrite Z.sub_diag; split; [lia|split; [lia|reflexivity]].
  - Z.div_mod_to_equations; lia.
Qed.

(** the phase lock loop only moves [edgIdx] and [edgeDC] of slot [t] *)
Lemma lockStep_frame t s i :
  edgLen (lockStep t s i) = edgLen s /\ note (lockStep t s i) = note s /\
  edgVal (lockStep t s i) = edgVal s /\ numOsc (lockStep t s i) = numOsc s /\
  pW (lockStep t s i) = pW s /\ ampOsc (lockStep t s i) = ampOsc s /\
  freeze (lockStep t s i) = freeze s.
Proof.
  unfold lockStep; destruct (Nat.eqb t i); [auto 10|].
  destruct (negb _); simpl; auto 10.
Qed.

Lemma phaseLock_loop_frame t is s :
  edgLen (fold_left (lockStep t) is s) = edgLen s /\
  note (fold_left (lockStep t) is s) = note s /\
  edgVal (fold_left (lockStep t) is s) = edgVal s /\
  numOsc (fold_left (lockStep t) is s) = numOsc s.
Proof.
  revert s; induction is as [|i r IH]; intros s; simpl; [auto|].
  destruct (IH (lockStep t s i)) as (-> & -> & -> & ->).
  destruct (lockStep_frame t s i) as (-> & -> & -> & -> & _); auto.
Qed.

Lemma phaseLock_frame s t :
  edgLen (phaseLock s t) = edgLen s /\ note (phaseLock s t) = note s /\
  edgVal (phaseLock s t) = edgVal s /\ numOsc (phaseLock s t) = numOsc s.
Proof. apply phaseLock_loop_frame. Qed.

(** C4: with [freeze] off and a note other than [NoNote], [setNote( t, n )]
    subtracts octaves until the note is below 48, stores that note and
    installs the table period at that index; the note is the one given by
    [octaveReduce], which lies in the table, below [n], a whole number of
    octaves from it. *)
Theorem setNote_wrapped_period s t n :
  wf s -> (t < MAX_OSC)%nat -> 0 <= n <= 255 -> n <> NoNote ->
  freeze s = false -> 1 <= pW s <= 128 ->
  wrapNote n = octaveReduce n /\
  0 <= octaveReduce n < numNotes /\ octaveReduce n <= n /\
  (n - octaveReduce n) mod 12 = 0 /\
  noteOf (setNote s t n) t = octaveReduce n /\
  periodOf (setNote s t n) t = nth (Z.to_nat (octaveReduce n)) NotePeriods 0.
Proof.
  intros (H1 & H2 & H3 & H4 & H5) Ht Hn Hnn Hf Hpw.
  assert (Hw : wrapNote n = octaveReduce n) by (apply wrapNote_octaveReduce; lia).
  destruct (octaveReduce_range n ltac:(lia)) as (Hr & Hle & Hm).
  split; [exact Hw|]. split; [exact Hr|]. split; [exact Hle|]. split; [exact Hm|].
  unfold setNote; rewrite Hf.
  replace (n =? NoNote) with false by (symmetry; apply Z.eqb_neq; auto).
  rewrite Hw.
  set (s1 := set_note s (upd (note s) t (octaveReduce n))).
  set (P := nth (Z.to_nat (octaveReduce n)) NotePeriods 0).
  assert (HP : In P NotePeriods).
  { apply nth_In; unfold numNotes in Hr; simpl; lia. }
  assert (Ht1 : (t < length (edgLen s1))%nat) by (simpl; unfold MAX_OSC in *; lia).
  destruct (calcEdges_len_spec s1 t P Ht1 ltac:(apply NotePeriods_bounds in HP; lia) Hpw)
    as (h & l & Hlen & Hsum & _).
  destruct (calcEdges_frame s1 t P) as (_ & _ & Hnote & _).
  destruct (phaseLock_frame (calcEdges s1 t P) t) as (Hl & Hno & _).
  split.
  - unfold noteOf; rewrite Hno, Hnote; simpl.
    apply get_upd_same; unfold MAX_OSC in *; lia.
  - unfold periodOf, lenOf; rewrite Hl; fold (lenOf (calcEdges s1 t P) t).
    rewrite Hlen; simpl; exact Hsum.
Qed.

Lemma setNote_wrapped_period_witness :
  wf (resetOsc zeroOsc) /\ (0 < MAX_OSC)%nat /\ 0 <= 100 <= 255 /\ 100 <> NoNote /\
  freeze (resetOsc zeroOsc) = false /\ 1 <= pW (resetOsc zeroOsc) <= 128 /\
  (wrapNote 100 = octaveReduce 100 /\
   0 <= octaveReduce 100 < numNotes /\ octaveReduce 100 <= 100 /\
   (100 - octaveReduce 100) mod 12 = 0 /\
   noteOf (setNote (resetOsc zeroOsc) 0 100) 0 = octaveReduce 100 /\
   periodOf (setNote (resetOsc zeroOsc) 0 100) 0 =
     nth (Z.to_nat (octaveReduce 100)) NotePeriods 0).
Proof.
  assert (Hwf : wf (resetOsc zeroOsc)) by (vm_compute; auto 10).
  assert (Hpw : 1 <= pW (resetOsc zeroOsc) <= 128) by (vm_compute; split; discriminate).
  assert (Hf : freeze (resetOsc zeroOsc) = false) by reflexivity.
  refine (conj Hwf (conj _ (conj _ (conj _ (conj Hf (conj Hpw _)))))).
  - vm_compute; lia.
  - lia.
  - unfold NoNote; lia.
  - exact (setNote_wrapped_period (resetOsc zeroOsc) 0 100 Hwf
             ltac:(vm_compute; lia) ltac:(lia) ltac:(unfold NoNote; lia) Hf Hpw).
Defined.

(** ** [output] *)

Lemma output_iter n s : fst (output n s) = iter n tickState s.
Proof.
  revert s; induction n as [|n IH]; intros s; simpl; [reflexivity|].
  destruct (sampleTick s) as [s1 v] eqn:E.
  specialize (IH s1); destruct (output n s1) as [s2 vs]; simpl in *.
  rewrite IH; unfold tickState; rewrite E; reflexivity.
Qed.

Lemma oscTick_frame s t :
  edgLen (fst (oscTick s t)) = edgLen s /\ edgVal (fst (oscTick s t)) = edgVal s /\
  numOsc (fst (oscTick s t)) = numOsc s /\ ampOsc (fst (oscTick s t)) = ampOsc s /\
  note (fst (oscTick s t)) = note s /\ pW (fst (oscTick s t)) = pW s /\
  freeze (fst (oscTick s t)) = freeze s /\
  exists k, snd (oscTick s t) = sel (valOf s t) k.
Proof.
  unfold oscTick; destruct (_ =? 0); simpl; repeat split; eexists; reflexivity.
Qed.

Lemma slotTicks_loop is s vs :
  let r := fold_left slotStep is (s, vs) in
  edgLen (fst r) = edgLen s /\ edgVal (fst r) = edgVal s /\
  numOsc (fst r) = numOsc s /\ ampOsc (fst r) = ampOsc s /\
  exists rest, snd r = vs ++ rest /\ length rest = length is /\
    forall j, (j < length is)%nat ->
      exists k, nth j rest 0 = sel (valOf s (nth j is O)) k.
Proof.
  revert s vs; induction is as [|i is IH]; intros s vs; cbn [fold_left length].
  - repeat split; auto. exists []; rewrite app_nil_r; repeat split; auto.
    intros j Hj; simpl in Hj; lia.
  - destruct (oscTick_frame s i) as (Hl & Hv & Hn & Ha & _ & _ & _ & k0 & Hk0).
    replace (slotStep (s, vs) i) with (fst (oscTick s i), vs ++ [snd (oscTick s i)])
      by (unfold slotStep; destruct (oscTick s i); reflexivity).
    destruct (oscTick s i) as [s1 v]; simpl in *.
    destruct (IH s1 (vs ++ [v])) as (Hl' & Hv' & Hn' & Ha' & rest & Hr & Hlen & Hj).
    rewrite Hl', Hv', Hn', Ha', Hl, Hv, Hn, Ha.
    repeat split; auto.
    exists (v :: rest); rewrite Hr, <- app_assoc; simpl; repeat split; auto.
    intros [|j] Hjl.
    + exists k0; exact Hk0.
    + destruct (Hj j ltac:(lia)) as (k & Hk).
      exists k; rewrite Hk; unfold valOf; rewrite Hv; reflexivity.
Qed.

Lemma sampleTick_frame s :
  edgLen (fst (sampleTick s)) = edgLen s /\ edgVal (fst (sampleTick s)) = edgVal s /\
  numOsc (fst (sampleTick s)) = numOsc s /\ ampOsc (fst (sampleTick s)) = ampOsc s.
Proof.
  unfold sampleTick, slotTicks.
  destruct (slotTicks_loop (seq 0 (Z.to_nat (numOsc s))) s [])
    as (Hl & Hv & Hn & Ha & _).
  destruct (fold_left slotStep _ _) as [s1 vs]; simpl in *; auto.
Qed.

Lemma iter_sampleTick_frame k s :
  edgLen (iter k tickState s) = edgLen s /\ edgVal (iter k tickState s) = edgVal s /\
  numOsc (iter k tickState s) = numOsc s /\ ampOsc (iter k tickState s) = ampOsc s.
Proof.
  revert s; induction k as [|k IH]; intros s; simpl; [auto|].
  destruct (IH (tickState s)) as (-> & -> & -> & ->).
  apply sampleTick_frame.
Qed.

Lemma sel_same a k : sel (a, a) k = a.
Proof. unfold sel; destruct (k =? 0); reflexivity. Qed.

(** C5, as stated, fails: slot 0 of a one-oscillator section plays note 0
    and is then silenced with [setNote( 0, NoNote )]; its edges are 0 and
    0, but the samples [output] writes afterwards are all 127, not 0:
    [setSteps] gives a zero-length slot the value [ampOsc] on both edges. *)
Lemma setNote_NoNote_output_nonzero :
  let s := setNote (setNote (resetOsc zeroOsc) 0 0) 0 NoNote in
  numOsc s = 1 /\ lenOf s 0 = (0, 0) /\ idxOf s 0 = 0 /\ noteOf s 0 = NoNote /\
  snd (output 3 s) = [127; 127; 127].
Proof. vm_compute; auto 10. Qed.

(** C5 (amended): with [freeze] off, [setNote( t, NoNote )] sets both edge
    lengths of slot [t] to 0, its edge index to 0 and its note to [NoNote];
    from then on, for as long as only [output] runs, the value slot [t]
    adds into every sample is the constant [ampOsc] (127/numOsc): the slot
    holds a DC level and no longer oscillates. *)
Theorem setNote_NoNote_constant s t :
  wf s -> (t < MAX_OSC)%nat -> (t < Z.to_nat (numOsc s))%nat ->
  freeze s = false -> fst (valOf s t) = ampOsc s ->
  let s1 := setNote s t NoNote in
  lenOf s1 t = (0, 0) /\ idxOf s1 t = 0 /\ noteOf s1 t = NoNote /\
  forall k, nth t (snd (slotTicks (iter k tickState s1))) 0 = ampOsc s.
Proof.
  intros (H1 & H2 & H3 & H4 & H5) Ht Htn Hf Hv s1.
  assert (Hs1 : s1 = set_note (setSteps (set_edgIdx s (upd (edgIdx s) t 0)) t 0 0)
                      (upd (note s) t NoNote))
    by (unfold s1, setNote; rewrite Hf; reflexivity).
  assert (Hlen : lenOf s1 t = (0, 0)).
  { rewrite Hs1; unfold lenOf; simpl; apply get_upd_same; unfold MAX_OSC in *; lia. }
  assert (Hval : valOf s1 t = (ampOsc s, ampOsc s)).
  { rewrite Hs1; unfold valOf; simpl.
    rewrite get_upd_same by (unfold MAX_OSC in *; lia).
    exact (f_equal (fun x => (x, ampOsc s)) Hv). }
  assert (Hnum : numOsc s1 = numOsc s) by (rewrite Hs1; reflexivity).
  refine (conj Hlen (conj _ (conj _ _))).
  - rewrite Hs1; unfold idxOf; simpl; apply get_upd_same; unfold MAX_OSC in *; lia.
  - rewrite Hs1; unfold noteOf; simpl; apply get_upd_same; unfold MAX_OSC in *; lia.
  - intros k.
    destruct (iter_sampleTick_frame k s1) as (_ & Hv' & Hn' & _).
    set (s2 := iter k tickState s1) in *.
    unfold slotTicks.
    destruct (slotTicks_loop (seq 0 (Z.to_nat (numOsc s2))) s2 [])
      as (_ & _ & _ & _ & rest & -> & Hrl & Hj).
    rewrite length_seq in Hj.
    destruct (Hj t ltac:(rewrite Hn', Hnum; exact Htn)) as (k' & Hk).
    simpl; rewrite Hk, seq_nth by (rewrite Hn', Hnum; exact Htn); simpl.
    unfold valOf; rewrite Hv'; fold (valOf s1 t); rewrite Hval.
    apply sel_same.
Qed.

Lemma setNote_NoNote_constant_witness :
  wf (resetOsc zeroOsc) /\ (0 < MAX_OSC)%nat /\
  (0 < Z.to_nat (numOsc (resetOsc zeroOsc)))%nat /\
  freeze (resetOsc zeroOsc) = false /\
  fst (valOf (resetOsc zeroOsc) 0) = ampOsc (resetOsc zeroOsc) /\
  (let s1 := setNote (resetOsc zeroOsc) 0 NoNote in
   lenOf s1 0 = (0, 0) /\ idxOf s1 0 = 0 /\ noteOf s1 0 = NoNote /\
   forall k, nth 0 (snd (slotTicks (iter k tickState s1))) 0 = ampOsc (resetOsc zeroOsc)).
Proof.
  assert (Hwf : wf (resetOsc zeroOsc)) by (vm_compute; auto 10).
  assert (Ht : (0 < MAX_OSC)%nat) by (vm_compute; lia).
  assert (Htn : (0 < Z.to_nat (numOsc (resetOsc zeroOsc)))%nat) by (vm_compute; lia).
  assert (Hf : freeze (resetOsc zeroOsc) = false) by reflexivity.
  assert (Hv : fst (valOf (resetOsc zeroOsc) 0) = ampOsc (resetOsc zeroOsc))
    by reflexivity.
  exact (conj Hwf (conj Ht (conj Htn (conj Hf (conj Hv
    (setNote_NoNote_constant (resetOsc zeroOsc) 0 Hwf Ht Htn Hf Hv)))))).
Defined.

(** ** The phase lock loop *)

Lemma existsb_pointwise {A} (f g : A -> bool) l :
  (forall x, f x = g x) -> existsb f l = existsb g l.
Proof. intros H; induction l as [|x l IH]; simpl; [reflexivity|]; rewrite H, IH; reflexivity. Qed.

Lemma lockStep_phase_other t s i j :
  j <> t -> phaseOf (lockStep t s i) j = phaseOf s j.
Proof.
  intros Hj; unfold lockStep; destruct (Nat.eqb t i); [reflexivity|].
  destruct (negb _); [reflexivity|].
  unfold phaseOf, idxOf, dcOf; simpl.
  rewrite !get_upd_other by congruence; reflexivity.
Qed.

Lemma lockStep_phase_self t s i :
  (t < length (edgIdx s))%nat -> (t < length (edgeDC s))%nat ->
  phaseOf (lockStep t s i) t = if lockMatch t s i then phaseOf s i else phaseOf s t.
Proof.
  intros H1 H2; unfold lockStep, lockMatch.
  destruct (Nat.eqb_spec t i); simpl; [reflexivity|].
  destruct (noteOf s t =? noteOf s i); simpl; [|reflexivity].
  unfold phaseOf, idxOf, dcOf; simpl.
  rewrite !get_upd_same by (rewrite ?length_upd; auto); reflexivity.
Qed.

Lemma lockStep_lengths t s i :
  length (edgIdx (lockStep t s i)) = length (edgIdx s) /\
  length (edgeDC (lockStep t s i)) = length (edgeDC s).
Proof.
  unfold lockStep; destruct (Nat.eqb t i); [auto|].
  destruct (negb _); simpl; rewrite ?length_upd; auto.
Qed.

(** when every slot the loop may copy from has the edge state [ph], slot
    [t] ends with [ph] if some slot matched and keeps its own otherwise;
    the other slots are untouched *)
Lemma phaseLock_loop t is s ph :
  (t < length (edgIdx s))%nat -> (t < length (edgeDC s))%nat ->
  (forall i, In i is -> lockMatch t s i = true -> phaseOf s i = ph) ->
  phaseOf (fold_left (lockStep t) is s) t =
    (if existsb (lockMatch t s) is then ph else phaseOf s t) /\
  (forall j, j <> t -> phaseOf (fold_left (lockStep t) is s) j = phaseOf s j).
Proof.
  revert s; induction is as [|i is IH]; intros s H1 H2 Hph; simpl; [auto|].
  destruct (lockStep_lengths t s i) as (L1 & L2).
  destruct (lockStep_frame t s i) as (_ & Hn & _).
  assert (Hm : forall j, lockMatch t (lockStep t s i) j = lockMatch t s j)
    by (intros j; unfold lockMatch, noteOf; rewrite Hn; reflexivity).
  assert (Hoth : forall j, j <> t -> phaseOf (lockStep t s i) j = phaseOf s j)
    by (intros j Hj; apply lockStep_phase_other; auto).
  destruct (IH (lockStep t s i)) as (Ht & Hj); try lia.
  { intros j Hin Hmj. rewrite Hm in Hmj.
    assert (j <> t) by (unfold lockMatch in Hmj; destruct (Nat.eqb_spec t j); simpl in Hmj;
                        congruence).
    rewrite Hoth by auto. apply Hph; simpl; auto. }
  split.
  - rewrite Ht, lockStep_phase_self by auto.
    rewrite (existsb_pointwise _ _ _ Hm).
    destruct (lockMatch t s i) eqn:E; cbn [orb].
    + assert (Hi : phaseOf s i = ph) by (apply Hph; simpl; auto).
      rewrite Hi; destruct (existsb (lockMatch t s) is); reflexivity.
    + reflexivity.
  - intros j Hjt; rewrite Hj, Hoth by auto; reflexivity.
Qed.

Lemma phaseLock_lengths t is s :
  length (edgIdx (fold_left (lockStep t) is s)) = length (edgIdx s) /\
  length (edgeDC (fold_left (lockStep t) is s)) = length (edgeDC s).
Proof.
  revert s; induction is as [|i is IH]; intros s; simpl; [auto|].
  destruct (IH (lockStep t s i)) as (-> & ->); apply lockStep_lengths.
Qed.

Lemma lockLoop_freeze t is s : freeze (fold_left (lockStep t) is s) = freeze s.
Proof.
  revert s; induction is as [|i is IH]; intros s; simpl; [reflexivity|].
  rewrite IH; destruct (lockStep_frame t s i) as (_ & _ & _ & _ & _ & _ & ->); reflexivity.
Qed.

(** one [setNote( t, n )] with a note: slot [t] gets the wrapped note and
    the edge state shared by the slots it locks to, the other slots keep
    note and edge state *)
Lemma setNote_lock s t n ph :
  wf s -> (t < MAX_OSC)%nat -> n <> NoNote -> freeze s = false ->
  (forall i, (i < Z.to_nat (numOsc s))%nat -> i <> t ->
     noteOf s i = wrapNote n -> phaseOf s i = ph) ->
  let s' := setNote s t n in
  wf s' /\ numOsc s' = numOsc s /\ freeze s' = false /\
  noteOf s' t = wrapNote n /\ (forall j, j <> t -> noteOf s' j = noteOf s j) /\
  phaseOf s' t =
    (if existsb (fun i => negb (Nat.eqb t i) && (wrapNote n =? noteOf s i))
          (seq 0 (Z.to_nat (numOsc s)))
     then ph else phaseOf s t) /\
  (forall j, j <> t -> phaseOf s' j = phaseOf s j).
Proof.
  intros Hwf Ht Hn Hf Hph s'.
  destruct Hwf as (W1 & W2 & W3 & W4 & W5).
  assert (Hs' : s' = phaseLock (calcEdges (set_note s (upd (note s) t (wrapNote n))) t
                      (nth (Z.to_nat (wrapNote n)) NotePeriods 0)) t).
  { unfold s', setNote; rewrite Hf.
    replace (n =? NoNote) with false by (symmetry; apply Z.eqb_neq; auto).
    reflexivity. }
  set (s1 := set_note s (upd (note s) t (wrapNote n))) in Hs'.
  set (s2 := calcEdges s1 t (nth (Z.to_nat (wrapNote n)) NotePeriods 0)) in Hs'.
  destruct (calcEdges_frame s1 t (nth (Z.to_nat (wrapNote n)) NotePeriods 0))
    as (F1 & F2 & F3 & F4 & _ & _ & F7 & F8).
  fold s2 in F1, F2, F3, F4, F7, F8.
  assert (N2 : forall j, noteOf s2 j = if Nat.eqb t j then wrapNote n else noteOf s j).
  { intros j; unfold noteOf; rewrite F3; simpl.
    destruct (Nat.eqb_spec t j) as [<-|Hne].
    - apply get_upd_same; unfold MAX_OSC in *; lia.
    - apply get_upd_other; auto. }
  assert (P2 : forall j, phaseOf s2 j = phaseOf s j)
    by (intros j; unfold phaseOf, idxOf, dcOf; rewrite F1, F2; reflexivity).
  assert (M2 : forall i, lockMatch t s2 i = negb (Nat.eqb t i) && (wrapNote n =? noteOf s i)).
  { intros i; unfold lockMatch; rewrite !N2, Nat.eqb_refl.
    destruct (Nat.eqb_spec t i); reflexivity. }
  destruct (phaseLock_loop t (seq 0 (Z.to_nat (numOsc s2))) s2 ph) as (Lt & Lj).
  { rewrite F1; unfold s1; simpl; unfold MAX_OSC in *; lia. }
  { rewrite F2; unfold s1; simpl; unfold MAX_OSC in *; lia. }
  { intros i Hin Hm. rewrite M2 in Hm. rewrite P2.
    apply in_seq in Hin. rewrite F4 in Hin; unfold s1 in Hin; simpl in Hin.
    destruct (Nat.eqb_spec t i); [discriminate|].
    apply Hph; [lia|auto|]. simpl in Hm; symmetry; apply Z.eqb_eq; auto. }
  destruct (phaseLock_frame s2 t) as (G1 & G2 & G3 & G4).
  destruct (phaseLock_lengths t (seq 0 (Z.to_nat (numOsc s2))) s2) as (K1 & K2).
  rewrite Hs'; unfold phaseLock.
  fold (phaseLock s2 t); rewrite ?G1, ?G2, ?G3, ?G4.
  unfold phaseLock in *.
  refine (conj _ (conj _ (conj _ (conj _ (conj _ (conj _ _)))))).
  - unfold wf; rewrite K1, K2, G1, G2, G3, F1, F2, F3, F8.
    simpl; rewrite !length_upd.
    destruct (calcEdges_shape s1 t (nth (Z.to_nat (wrapNote n)) NotePeriods 0)) as (a & b & Hc).
    fold s2 in Hc; rewrite Hc; unfold setSteps; simpl.
    destruct (_ <=? 1); simpl; rewrite ?length_upd; auto.
  - rewrite ?G4, F4; reflexivity.
  - rewrite lockLoop_freeze, F7; unfold s1; simpl; exact Hf.
  - unfold noteOf; rewrite G2; fold (noteOf s2 t); rewrite N2, Nat.eqb_refl; reflexivity.
  - intros j Hj; unfold noteOf; rewrite G2; fold (noteOf s2 j); rewrite N2.
    apply Nat.eqb_neq in Hj; rewrite Nat.eqb_sym, Hj; reflexivity.
  - rewrite Lt, (existsb_pointwise _ _ _ M2), P2, F4; reflexivity.
  - intros j Hj; rewrite Lj, P2 by auto; reflexivity.
Qed.

(** C6, as stated, fails: three active slots; slots 1 and 2 play note 0,
    and slot 2 has been moved by [setPhase( 2, 5 )].  [setNote( 0, 0 )] then
    copies the edge state of the last matching slot, 2; [setNote( 2, 0 )]
    copies that of the last matching slot, 1.  Slots 0 and 2 end with
    different edge countdowns. *)
Lemma setNote_same_note_unlocked :
  let s := setNote (setNote (setNumOsc (resetOsc zeroOsc) 3) 1 0) 2 0 in
  let sp := setPhaseTail s 2 5 in
  let s2 := setNote (setNote sp 0 0) 2 0 in
  setPhase s 2 5 sp /\ freeze sp = false /\ numOsc sp = 3 /\
  noteOf s2 0 = noteOf s2 2 /\
  phaseOf s2 0 = (0, 175) /\ phaseOf s2 2 = (0, 0).
Proof.
  refine (conj _ (conj _ (conj _ (conj _ (conj _ _))))); try (vm_compute; reflexivity).
  exists 5; split; [|reflexivity].
  apply normLoop_done; vm_compute; reflexivity.
Qed.

(** C6 (amended): two distinct active slots [a] and [b] set to the same
    note [n] (not [NoNote], [freeze] off) by [setNote( a, n )] then
    [setNote( b, n )] end with the same [edgIdx] and [edgeDC], provided the
    active slots other than [a] that already hold the wrapped note share
    one edge state before the calls. *)
Theorem setNote_same_note_locked s a b n :
  wf s -> (Z.to_nat (numOsc s) <= MAX_OSC)%nat ->
  (a < Z.to_nat (numOsc s))%nat -> (b < Z.to_nat (numOsc s))%nat -> a <> b ->
  n <> NoNote -> freeze s = false ->
  (exists ph, forall i, (i < Z.to_nat (numOsc s))%nat -> i <> a ->
     noteOf s i = wrapNote n -> phaseOf s i = ph) ->
  let s2 := setNote (setNote s a n) b n in
  idxOf s2 a = idxOf s2 b /\ dcOf s2 a = dcOf s2 b.
Proof.
  intros Hwf Hmax Ha Hb Hab Hn Hf (ph & Hph) s2.
  destruct (setNote_lock s a n ph Hwf ltac:(lia) Hn Hf Hph)
    as (Wf1 & Num1 & Fr1 & Na & Noth & Pa & Poth).
  set (s1 := setNote s a n) in *.
  set (E1 := existsb _ _) in Pa.
  assert (Hph1 : forall i, (i < Z.to_nat (numOsc s1))%nat -> i <> b ->
                   noteOf s1 i = wrapNote n -> phaseOf s1 i = phaseOf s1 a).
  { intros i Hi Hib Hni.
    destruct (Nat.eq_dec i a) as [->|Hia]; [reflexivity|].
    rewrite Num1 in Hi. rewrite Noth in Hni by auto.
    assert (HE : E1 = true).
    { unfold E1; apply existsb_exists; exists i; split.
      - apply in_seq; lia.
      - apply andb_true_intro; split.
        + apply Nat.eqb_neq in Hia; rewrite Nat.eqb_sym, Hia; reflexivity.
        + apply Z.eqb_eq; auto. }
    rewrite Poth, Pa, HE by auto. apply Hph; auto. }
  destruct (setNote_lock s1 b n (phaseOf s1 a) Wf1 ltac:(lia) Hn Fr1 Hph1)
    as (_ & _ & _ & _ & _ & Pb & Poth2).
  assert (HE2 : existsb (fun i => negb (Nat.eqb b i) && (wrapNote n =? noteOf s1 i))
                  (seq 0 (Z.to_nat (numOsc s1))) = true).
  { apply existsb_exists; exists a; split.
    - apply in_seq; rewrite Num1; lia.
    - apply andb_true_intro; split.
      + apply Nat.eqb_neq in Hab; rewrite Nat.eqb_sym, Hab; reflexivity.
      + apply Z.eqb_eq; auto. }
  rewrite HE2 in Pb.
  assert (Heq : phaseOf s2 a = phaseOf s2 b).
  { unfold s2; rewrite Pb, Poth2 by auto; reflexivity. }
  unfold phaseOf in Heq; injection Heq; auto.
Qed.

Lemma setNote_same_note_locked_witness :
  let s := setNumOsc (resetOsc zeroOsc) 2 in
  wf s /\ (Z.to_nat (numOsc s) <= MAX_OSC)%nat /\
  (0 < Z.to_nat (numOsc s))%nat /\ (1 < Z.to_nat (numOsc s))%nat /\ 0%nat <> 1%nat /\
  7 <> NoNote /\ freeze s = false /\
  (exists ph, forall i, (i < Z.to_nat (numOsc s))%nat -> i <> 0%nat ->
     noteOf s i = wrapNote 7 -> phaseOf s i = ph) /\
  (let s2 := setNote (setNote s 0 7) 1 7 in
   idxOf s2 0 = idxOf s2 1 /\ dcOf s2 0 = dcOf s2 1).
Proof.
  intros s.
  assert (Hwf : wf s) by (vm_compute; auto 10).
  assert (Hmax : (Z.to_nat (numOsc s) <= MAX_OSC)%nat) by (vm_compute; lia).
  assert (Ha : (0 < Z.to_nat (numOsc s))%nat) by (vm_compute; lia).
  assert (Hb : (1 < Z.to_nat (numOsc s))%nat) by (vm_compute; lia).
  assert (Hab : 0%nat <> 1%nat) by lia.
  assert (Hn : 7 <> NoNote) by (unfold NoNote; lia).
  assert (Hf : freeze s = false) by reflexivity.
  assert (Hex : exists ph, forall i, (i < Z.to_nat (numOsc s))%nat -> i <> 0%nat ->
     noteOf s i = wrapNote 7 -> phaseOf s i = ph).
  { exists (0, 0); intros i Hi Hi0 Hni.
    assert (i = 1%nat) by (vm_compute in Hi; lia); subst i.
    vm_compute in Hni; discriminate. }
  exact (conj Hwf (conj Hmax (conj Ha (conj Hb (conj Hab (conj Hn (conj Hf (conj Hex
    (setNote_same_note_locked s 0 1 7 Hwf Hmax Ha Hb Hab Hn Hf Hex))))))))).
Defined.

(** ** Fades *)

Lemma dynamics_playing_fixed k v : iter k dynamics (mkSynth PLAYING v) = mkSynth PLAYING v.
Proof. induction k as [|k IH]; simpl; auto. Qed.

Lemma dynamics_stopped_fixed k v : iter k dynamics (mkSynth STOPPED v) = mkSynth STOPPED v.
Proof. induction k as [|k IH]; simpl; auto. Qed.

Lemma fade_in_closed k v :
  0 <= v <= 255 ->
  iter k dynamics (mkSynth FADE_IN v) =
    if v + Z.of_nat k <=? 255 then mkSynth FADE_IN (v + Z.of_nat k)
    else mkSynth PLAYING 255.
Proof.
  revert v; induction k as [|k IH]; intros v Hv; simpl iter.
  - replace (v + Z.of_nat 0) with v by lia.
    replace (v <=? 255) with true by (symmetry; apply Z.leb_le; lia); reflexivity.
  - unfold dynamics at 2; simpl playStatus; simpl vol.
    destruct (Z.eqb_spec v 255) as [->|Hne].
    + unfold set_playStatus; cbn [playStatus vol]; rewrite dynamics_playing_fixed.
      replace (255 + Z.of_nat (S k) <=? 255) with false by (symmetry; apply Z.leb_gt; lia).
      reflexivity.
    + unfold setVol; cbn [playStatus vol]; rewrite byteOf_id by lia.
      rewrite IH by lia.
      replace (v + 1 + Z.of_nat k) with (v + Z.of_nat (S k)) by lia; reflexivity.
Qed.

Lemma fade_out_closed k v :
  0 <= v <= 255 ->
  iter k dynamics (mkSynth FADE_OUT v) =
    if 0 <=? v - Z.of_nat k then mkSynth FADE_OUT (v - Z.of_nat k)
    else mkSynth STOPPED 0.
Proof.
  revert v; induction k as [|k IH]; intros v Hv; simpl iter.
  - replace (v - Z.of_nat 0) with v by lia.
    replace (0 <=? v) with true by (symmetry; apply Z.leb_le; lia); reflexivity.
  - unfold dynamics at 2; simpl playStatus; simpl vol.
    destruct (Z.eqb_spec v 0) as [->|Hne].
    + unfold set_playStatus; cbn [playStatus vol]; rewrite dynamics_stopped_fixed.
      replace (0 <=? 0 - Z.of_nat (S k)) with false by (symmetry; apply Z.leb_gt; lia).
      reflexivity.
    + unfold setVol; cbn [playStatus vol]; rewrite byteOf_id by lia.
      rewrite IH by lia.
      replace (v - 1 - Z.of_nat k) with (v - Z.of_nat (S k)) by lia; reflexivity.
Qed.

(** C7: in [FADE_IN] a [dynamics()] tick raises [vol] by exactly 1, or at
    255 switches to [PLAYING]; so [vol] never decreases over the ticks, the
    status stays [FADE_IN] until [vol] is 255 and is [PLAYING] (with [vol]
    255) after [256 - vol] ticks.  Symmetrically in [FADE_OUT], down to 0
    and [STOPPED] after [vol + 1] ticks. *)
Theorem dynamics_fade_monotone v :
  0 <= v <= 255 ->
  (dynamics (mkSynth FADE_IN v) =
     (if v =? 255 then mkSynth PLAYING v else mkSynth FADE_IN (v + 1))) /\
  (forall k, vol (iter k dynamics (mkSynth FADE_IN v)) <=
             vol (iter (S k) dynamics (mkSynth FADE_IN v)) /\
     (playStatus (iter k dynamics (mkSynth FADE_IN v)) = FADE_IN \/
      iter k dynamics (mkSynth FADE_IN v) = mkSynth PLAYING 255)) /\
  iter (Z.to_nat (256 - v)) dynamics (mkSynth FADE_IN v) = mkSynth PLAYING 255 /\
  (dynamics (mkSynth FADE_OUT v) =
     (if v =? 0 then mkSynth STOPPED v else mkSynth FADE_OUT (v - 1))) /\
  (forall k, vol (iter (S k) dynamics (mkSynth FADE_OUT v)) <=
             vol (iter k dynamics (mkSynth FADE_OUT v)) /\
     (playStatus (iter k dynamics (mkSynth FADE_OUT v)) = FADE_OUT \/
      iter k dynamics (mkSynth FADE_OUT v) = mkSynth STOPPED 0)) /\
  iter (Z.to_nat (v + 1)) dynamics (mkSynth FADE_OUT v) = mkSynth STOPPED 0.
Proof.
  intros Hv.
  refine (conj _ (conj _ (conj _ (conj _ (conj _ _))))).
  - unfold dynamics; cbn [playStatus vol]; destruct (Z.eqb_spec v 255); [reflexivity|].
    unfold setVol; cbn [playStatus vol]; rewrite byteOf_id by lia; reflexivity.
  - intros k; rewrite !fade_in_closed by lia.
    destruct (Z.leb_spec (v + Z.of_nat k) 255), (Z.leb_spec (v + Z.of_nat (S k)) 255);
      cbn [vol playStatus]; split; auto; lia.
  - rewrite fade_in_closed by lia.
    replace (v + Z.of_nat (Z.to_nat (256 - v)) <=? 255) with false
      by (symmetry; apply Z.leb_gt; lia); reflexivity.
  - unfold dynamics; cbn [playStatus vol]; destruct (Z.eqb_spec v 0); [reflexivity|].
    unfold setVol; cbn [playStatus vol]; rewrite byteOf_id by lia; reflexivity.
  - intros k; rewrite !fade_out_closed by lia.
    destruct (Z.leb_spec 0 (v - Z.of_nat k)), (Z.leb_spec 0 (v - Z.of_nat (S k)));
      cbn [vol playStatus]; split; auto; lia.
  - rewrite fade_out_closed by lia.
    replace (0 <=? v - Z.of_nat (Z.to_nat (v + 1))) with false
      by (symmetry; apply Z.leb_gt; lia); reflexivity.
Qed.

Lemma dynamics_fade_monotone_witness :
  0 <= 200 <= 255 /\
  (dynamics (mkSynth FADE_IN 200) =
     (if 200 =? 255 then mkSynth PLAYING 200 else mkSynth FADE_IN (200 + 1))) /\
  (forall k, vol (iter k dynamics (mkSynth FADE_IN 200)) <=
             vol (iter (S k) dynamics (mkSynth FADE_IN 200)) /\
     (playStatus (iter k dynamics (mkSynth FADE_IN 200)) = FADE_IN \/
      iter k dynamics (mkSynth FADE_IN 200) = mkSynth PLAYING 255)) /\
  iter (Z.to_nat (256 - 200)) dynamics (mkSynth FADE_IN 200) = mkSynth PLAYING 255 /\
  (dynamics (mkSynth FADE_OUT 200) =
     (if 200 =? 0 then mkSynth STOPPED 200 else mkSynth FADE_OUT (200 - 1))) /\
  (forall k, vol (iter (S k) dynamics (mkSynth FADE_OUT 200)) <=
             vol (iter k dynamics (mkSynth FADE_OUT 200)) /\
     (playStatus (iter k dynamics (mkSynth FADE_OUT 200)) = FADE_OUT \/
      iter k dynamics (mkSynth FADE_OUT 200) = mkSynth STOPPED 0)) /\
  iter (Z.to_nat (200 + 1)) dynamics (mkSynth FADE_OUT 200) = mkSynth STOPPED 0.
Proof.
  assert (H : 0 <= 200 <= 255) by lia.
  exact (conj H (dynamics_fade_monotone 200 H)).
Defined.

(** ** Start and stop *)

(** C8: [start()] sends [STOPPED] and [FADE_OUT] (and [FADE_IN]) to
    [FADE_IN] and leaves a [PLAYING] synth unchanged; [stop()] sends every
    state but [STOPPED] to [FADE_OUT] and leaves a [STOPPED] synth
    unchanged; neither touches the volume. *)
Theorem start_stop_transitions sy :
  (playStatus sy = STOPPED -> start sy = mkSynth FADE_IN (vol sy)) /\
  (playStatus sy = FADE_OUT -> start sy = mkSynth FADE_IN (vol sy)) /\
  (playStatus sy = FADE_IN -> start sy = mkSynth FADE_IN (vol sy)) /\
  (playStatus sy = PLAYING -> start sy = sy) /\
  (playStatus sy <> STOPPED -> stop sy = mkSynth FADE_OUT (vol sy)) /\
  (playStatus sy = STOPPED -> stop sy = sy).
Proof.
  destruct sy as [p v]; unfold start, stop, set_playStatus; simpl.
  destruct p; repeat split; intros H; try discriminate; try congruence; reflexivity.
Qed.

(** ** Mixing *)

Lemma charOf_id z : -128 <= z <= 127 -> charOf z = z.
Proof. intros H; unfold charOf; rewrite Z.mod_small by lia; lia. Qed.

Lemma mixSample_floor d l :
  -128 <= d <= 127 -> -128 <= l <= 127 ->
  mixSample d l = Z.shiftr (3 * d + l) 2 /\ mixSample d l = (3 * d + l) / 4.
Proof.
  intros Hd Hl; unfold mixSample.
  rewrite Z.shiftr_div_pow2 by lia; change (2 ^ 2) with 4.
  rewrite charOf_id.
  - rewrite Z.shiftr_div_pow2 by lia; change (2 ^ 2) with 4.
    replace (d * 3 + l) with (3 * d + l) by lia; auto.
  - split; Z.div_mod_to_equations; lia.
Qed.

(** C9: every sample of both channels of [DroneSynth::output] is
    [(3*drone + lead) >> 2], which is the floor of [(3*drone + lead)/4],
    for [char] samples; drone 100 with lead 40 gives 85. *)
Theorem mixOutput_formula bufL bufR leadbuf :
  Forall (fun x => -128 <= x <= 127) bufL ->
  Forall (fun x => -128 <= x <= 127) bufR ->
  Forall (fun x => -128 <= x <= 127) leadbuf ->
  fst (mixOutput bufL bufR leadbuf) =
    map (fun '(d, l) => Z.shiftr (3 * d + l) 2) (combine bufL leadbuf) /\
  snd (mixOutput bufL bufR leadbuf) =
    map (fun '(d, l) => Z.shiftr (3 * d + l) 2) (combine bufR leadbuf) /\
  (forall d l, -128 <= d <= 127 -> -128 <= l <= 127 ->
     Z.shiftr (3 * d + l) 2 = (3 * d + l) / 4) /\
  mixOutput [100] [100] [40] = ([85], [85]).
Proof.
  intros HL HR HD; rewrite Forall_forall in HL, HR, HD.
  refine (conj _ (conj _ (conj _ _))).
  - apply map_ext_in; intros [d l] Hin.
    apply (mixSample_floor d l); [apply HL; eapply in_combine_l | apply HD; eapply in_combine_r];
      eauto.
  - apply map_ext_in; intros [d l] Hin.
    apply (mixSample_floor d l); [apply HR; eapply in_combine_l | apply HD; eapply in_combine_r];
      eauto.
  - intros d l Hd Hl; rewrite Z.shiftr_div_pow2 by lia; reflexivity.
  - reflexivity.
Qed.

Lemma mixOutput_formula_witness :
  Forall (fun x => -128 <= x <= 127) [100; -128; 127] /\
  Forall (fun x => -128 <= x <= 127) [-7; 0; 127] /\
  Forall (fun x => -128 <= x <= 127) [40; -128; 127] /\
  (fst (mixOutput [100; -128; 127] [-7; 0; 127] [40; -128; 127]) =
    map (fun '(d, l) => Z.shiftr (3 * d + l) 2) (combine [100; -128; 127] [40; -128; 127]) /\
  snd (mixOutput [100; -128; 127] [-7; 0; 127] [40; -128; 127]) =
    map (fun '(d, l) => Z.shiftr (3 * d + l) 2) (combine [-7; 0; 127] [40; -128; 127]) /\
  (forall d l, -128 <= d <= 127 -> -128 <= l <= 127 ->
     Z.shiftr (3 * d + l) 2 = (3 * d + l) / 4) /\
  mixOutput [100] [100] [40] = ([85], [85])).
Proof.
  assert (H1 : Forall (fun x => -128 <= x <= 127) [100; -128; 127])
    by (repeat constructor; lia).
  assert (H2 : Forall (fun x => -128 <= x <= 127) [-7; 0; 127])
    by (repeat constructor; lia).
  assert (H3 : Forall (fun x => -128 <= x <= 127) [40; -128; 127])
    by (repeat constructor; lia).
  exact (conj H1 (conj H2 (conj H3 (mixOutput_formula _ _ _ H1 H2 H3)))).
Defined.

(** ** [setPhase] *)

Lemma normLoop_zero phase P r : normLoop phase P r -> P = 0 -> 0 <= phase -> False.
Proof.
  induction 1 as [phase P Hlt|phase P r Hge Hrec IH]; intros HP H0; [lia|].
  apply IH; [exact HP|]. unfold wordOf; apply Z.mod_pos_bound; lia.
Qed.

Lemma normLoop_mod phase P r :
  normLoop phase P r -> 0 < P -> 0 <= phase < 65536 -> r = phase mod P.
Proof.
  induction 1 as [phase P Hlt|phase P r Hge Hrec IH]; intros HP H0.
  - symmetry; apply Z.mod_small; lia.
  - rewrite wordOf_id in IH by lia.
    rewrite IH by lia.
    replace phase with (phase - P + 1 * P) at 2 by lia.
    rewrite Z.mod_add by lia; reflexivity.
Qed.

Lemma normLoop_exists phase P :
  0 < P -> 0 <= phase < 65536 -> normLoop phase P (phase mod P).
Proof.
  intros HP.
  induction phase as [phase IH] using (well_founded_induction (Z.lt_wf 0)).
  intros Hph.
  destruct (Z.ltb_spec phase P).
  - rewrite Z.mod_small by lia; apply normLoop_done; lia.
  - apply normLoop_step; [lia|].
    rewrite wordOf_id by lia.
    replace (phase mod P) with ((phase - P) mod P).
    + apply IH; lia.
    + replace phase with (phase - P + 1 * P) at 2 by lia.
      rewrite Z.mod_add by lia; reflexivity.
Qed.

Lemma oscTick_slot s t :
  (t < length (edgIdx s))%nat -> (t < length (edgeDC s))%nat ->
  lenOf (fst (oscTick s t)) t = lenOf s t /\
  length (edgIdx (fst (oscTick s t))) = length (edgIdx s) /\
  length (edgeDC (fst (oscTick s t))) = length (edgeDC s) /\
  phaseOf (fst (oscTick s t)) t =
    (let dc := byteOf (dcOf s t - 1) in
     if dc =? 0 then (Z.lxor (idxOf s t) 1, sel (lenOf s t) (Z.lxor (idxOf s t) 1))
     else (idxOf s t, dc)).
Proof.
  intros H1 H2; unfold oscTick, phaseOf, idxOf, dcOf, lenOf; simpl.
  destruct (byteOf (get 0 (edgeDC s) t - 1) =? 0); simpl; rewrite ?length_upd;
    rewrite ?get_upd_same by (rewrite ?length_upd; auto); auto.
Qed.

Lemma iter_S_r {A} k (f : A -> A) x : iter (S k) f x = f (iter k f x).
Proof. revert x; induction k as [|k IH]; intros x; [reflexivity|]. exact (IH (f x)). Qed.

(** the edge state after [k < period] samples from the start *)
Lemma runSlot_phase s t k :
  (t < length (edgIdx s))%nat -> (t < length (edgeDC s))%nat ->
  0 <= fst (lenOf s t) <= 255 -> 0 <= snd (lenOf s t) <= 255 ->
  Z.of_nat k < periodOf s t ->
  lenOf (runSlot (atEdgeStart s t) t k) t = lenOf s t /\
  length (edgIdx (runSlot (atEdgeStart s t) t k)) = length (edgIdx s) /\
  length (edgeDC (runSlot (atEdgeStart s t) t k)) = length (edgeDC s) /\
  phaseOf (runSlot (atEdgeStart s t) t k) t =
    (if Z.of_nat k <? fst (lenOf s t) then (0, fst (lenOf s t) - Z.of_nat k)
     else (1, periodOf s t - Z.of_nat k)).
Proof.
  unfold periodOf; destruct (lenOf s t) as [l0 l1] eqn:El.
  intros H1 H2 Hl0 Hl1; simpl in *.
  induction k as [|k IH]; intros Hk.
  - unfold runSlot; simpl.
    unfold atEdgeStart, edgeStart, phaseOf, idxOf, dcOf, lenOf in *; simpl.
    rewrite El; simpl; rewrite !length_upd.
    rewrite !get_upd_same by auto.
    repeat split; auto.
    destruct (Z.eqb_spec l0 0), (Z.ltb_spec 0 l0); simpl; f_equal; lia.
  - destruct IH as (Lk & I1 & I2 & Pk); [lia|].
    unfold runSlot in *; rewrite iter_S_r.
    set (r := iter k (fun s0 => fst (oscTick s0 t)) (atEdgeStart s t)) in *.
    destruct (oscTick_slot r t ltac:(lia) ltac:(lia)) as (L & J1 & J2 & Ph).
    rewrite L, J1, J2, Lk, I1, I2. repeat split; auto.
    rewrite Ph, Lk; clear Ph.
    unfold phaseOf in Pk.
    destruct (Z.ltb_spec (Z.of_nat k) l0).
    + injection Pk as -> ->.
      destruct (Z.ltb_spec (Z.of_nat (S k)) l0).
      * rewrite byteOf_id by lia; cbv zeta.
        replace (l0 - Z.of_nat k - 1 =? 0) with false by (symmetry; apply Z.eqb_neq; lia).
        f_equal; lia.
      * rewrite byteOf_id by lia; cbv zeta.
        replace (l0 - Z.of_nat k - 1 =? 0) with true by (symmetry; apply Z.eqb_eq; lia).
        simpl; unfold sel; simpl; f_equal; lia.
    + injection Pk as -> ->.
      destruct (Z.ltb_spec (Z.of_nat (S k)) l0); [lia|].
      rewrite byteOf_id by lia; cbv zeta.
      replace (l0 + l1 - Z.of_nat k - 1 =? 0) with false by (symmetry; apply Z.eqb_neq; lia).
      f_equal; lia.
Qed.

Lemma setPhaseTail_phase s t r :
  (t < length (edgIdx s))%nat -> (t < length (edgeDC s))%nat ->
  phaseOf (setPhaseTail s t r) t =
    (if r <? fst (lenOf s t) then (0, byteOf (fst (lenOf s t) - r))
     else (1, byteOf (periodOf s t - r))).
Proof.
  intros H1 H2; unfold setPhaseTail, phaseOf, idxOf, dcOf.
  destruct (r <? fst (lenOf s t)); simpl;
    rewrite !get_upd_same by (rewrite ?length_upd; auto); reflexivity.
Qed.

(** C10: for a slot of positive period, the loop of [setPhase( t, phase )]
    terminates, and the slot ends in the edge state that [output] reaches
    [phase mod period] samples after the start of the waveform; for a slot
    of period 0 the loop never terminates, whatever the phase. *)
Theorem setPhase_mod_period s t phase :
  wf s -> (t < MAX_OSC)%nat -> 0 <= phase < 65536 ->
  0 <= fst (lenOf s t) <= 255 -> 0 <= snd (lenOf s t) <= 255 ->
  (0 < periodOf s t ->
     (exists s', setPhase s t phase s') /\
     forall s', setPhase s t phase s' ->
       phaseOf s' t =
       phaseOf (runSlot (atEdgeStart s t) t (Z.to_nat (phase mod periodOf s t))) t) /\
  (periodOf s t = 0 -> forall s', ~ setPhase s t phase s').
Proof.
  intros (W1 & W2 & _) Ht Hph Hl0 Hl1.
  assert (L1 : (t < length (edgIdx s))%nat) by (unfold MAX_OSC in *; lia).
  assert (L2 : (t < length (edgeDC s))%nat) by (unfold MAX_OSC in *; lia).
  assert (Hw : wordOf (periodOf s t) = periodOf s t)
    by (apply wordOf_id; unfold periodOf; lia).
  split.
  - intros HP; split.
    + exists (setPhaseTail s t (phase mod periodOf s t)).
      exists (phase mod periodOf s t); split; [|reflexivity].
      rewrite Hw; apply normLoop_exists; lia.
    + intros s' (r & Hr & ->).
      rewrite Hw in Hr.
      apply normLoop_mod in Hr; [|lia|lia]. subst r.
      assert (Hm : 0 <= phase mod periodOf s t < periodOf s t) by (apply Z.mod_pos_bound; lia).
      destruct (runSlot_phase s t (Z.to_nat (phase mod periodOf s t)) L1 L2 Hl0 Hl1
                  ltac:(lia)) as (_ & _ & _ & ->).
      rewrite setPhaseTail_phase by auto.
      rewrite Z2Nat.id by lia.
      unfold periodOf in *.
      destruct (Z.ltb_spec (phase mod (fst (lenOf s t) + snd (lenOf s t))) (fst (lenOf s t)));
        rewrite byteOf_id by lia; reflexivity.
  - intros HP s' (r & Hr & _).
    rewrite Hw in Hr.
    exact (normLoop_zero _ _ _ Hr HP ltac:(lia)).
Qed.

Lemma setPhase_mod_period_witness :
  let s := setNote (resetOsc zeroOsc) 0 0 in
  wf s /\ (0 < MAX_OSC)%nat /\ 0 <= 1000 < 65536 /\
  0 <= fst (lenOf s 0) <= 255 /\ 0 <= snd (lenOf s 0) <= 255 /\
  ((0 < periodOf s 0 ->
     (exists s', setPhase s 0 1000 s') /\
     forall s', setPhase s 0 1000 s' ->
       phaseOf s' 0 =
       phaseOf (runSlot (atEdgeStart s 0) 0 (Z.to_nat (1000 mod periodOf s 0))) 0) /\
   (periodOf s 0 = 0 -> forall s', ~ setPhase s 0 1000 s')).
Proof.
  intros s.
  assert (Hwf : wf s) by (vm_compute; auto 10).
  assert (Ht : (0 < MAX_OSC)%nat) by (vm_compute; lia).
  assert (Hp : 0 <= 1000 < 65536) by lia.
  assert (H0 : 0 <= fst (lenOf s 0) <= 255) by (vm_compute; split; discriminate).
  assert (H1 : 0 <= snd (lenOf s 0) <= 255) by (vm_compute; split; discriminate).
  exact (conj Hwf (conj Ht (conj Hp (conj H0 (conj H1
    (setPhase_mod_period s 0 1000 Hwf Ht Hp H0 H1)))))).
Defined.

(** ** Scope of the missing return in [calcEdges] *)

Lemma calcEdges_period s t P :
  (t < length (edgLen s))%nat -> 1 <= P <= 510 -> 1 <= pW s <= 128 ->
  periodOf (calcEdges s t P) t = P.
Proof.
  intros Ht HP Hpw.
  destruct (Z.eq_dec P 1) as [->|HP1].
  - unfold calcEdges, periodOf; change (1 <=? 1) with true; cbv beta iota zeta.
    rewrite !setSteps_pW.
    rewrite (wordOf_id 1), (wordOf_id (1 * pW s)), msb_div by lia.
    rewrite Z.div_small by lia; change (0 =? 0) with true; cbv beta iota.
    rewrite (wordOf_id (1 - 1)) by lia; change (1 - 1 >? 255) with false; cbv beta iota.
    rewrite setSteps_len by (rewrite setSteps_length; auto).
    rewrite Nat.eqb_refl, !lsb_id by lia; reflexivity.
  - destruct (calcEdges_len_spec s t P Ht ltac:(lia) Hpw) as (h & l & Hl & Hs & _).
    unfold periodOf; rewrite Hl; exact Hs.
Qed.

Lemma setPW_loop is s :
  NoDup is -> (forall j, In j is -> (j < length (edgLen s))%nat) ->
  1 <= pW s <= 128 -> (forall j, In j is -> 1 <= periodOf s j <= 510) ->
  forall i, periodOf (fold_left (fun s i => calcEdges s i (periodOf s i)) is s) i =
            periodOf s i.
Proof.
  revert s; induction is as [|j is IH]; intros s Hnd Hlen Hpw Hper i; simpl; [reflexivity|].
  inversion Hnd as [|? ? Hnin Hnd']; subst.
  set (s' := calcEdges s j (periodOf s j)).
  destruct (calcEdges_frame s j (periodOf s j)) as (_ & _ & _ & _ & Fp & _ & _ & Fl).
  fold s' in Fp, Fl.
  assert (Hj : (j < length (edgLen s))%nat) by (apply Hlen; simpl; auto).
  assert (Hper' : forall k, periodOf s' k = periodOf s k).
  { intros k; destruct (Nat.eq_dec j k) as [<-|Hne].
    - apply calcEdges_period; auto. apply Hper; simpl; auto.
    - unfold s', periodOf; rewrite calcEdges_len_other; auto. }
  rewrite IH; auto.
  - intros k Hk; rewrite Fl; apply Hlen; simpl; auto.
  - rewrite Fp; auto.
  - intros k Hk; rewrite Hper'; apply Hper; simpl; auto.
Qed.

(** [setPW] keeps the period of every slot as long as no active slot is
    silent: the defect of C2 and C3 shows only on silent slots *)
Lemma setPW_keeps_periods s x :
  wf s -> (Z.to_nat (numOsc s) <= MAX_OSC)%nat ->
  (forall j, (j < Z.to_nat (numOsc s))%nat -> 1 <= periodOf s j <= 510) ->
  forall i, periodOf (setPW s x) i = periodOf s i.
Proof.
  intros (_ & _ & W3 & _) Hn Hper i; unfold setPW; cbv zeta.
  set (x' := if (if x <? 1 then 1 else x) >? 128 then 128 else if x <? 1 then 1 else x).
  assert (Hx : 1 <= x' <= 128).
  { unfold x'; destruct (x <? 1) eqn:E1; [vm_compute; split; discriminate|].
    apply Z.ltb_ge in E1; destruct (Z.gtb_spec x 128); lia. }
  apply (setPW_loop (seq 0 (Z.to_nat (numOsc (set_pW s x')))) (set_pW s x')).
  - apply seq_NoDup.
  - intros j Hj; apply in_seq in Hj; simpl in *; unfold MAX_OSC in *; lia.
  - exact Hx.
  - intros j Hj; apply in_seq in Hj; apply Hper; simpl in Hj; lia.
Qed.

(** ** The section invariant [oscInv] *)

Lemma fold_left_inv {A B} (P : A -> Prop) (f : A -> B -> A) l x :
  P x -> (forall y b, In b l -> P y -> P (f y b)) -> P (fold_left f l x).
Proof.
  revert x; induction l as [|b l IH]; intros x Hx Hf; simpl; [exact Hx|].
  apply IH; [apply Hf; simpl; auto | intros y c Hc; apply Hf; simpl; auto].
Qed.

Lemma iter_inv {A} (P : A -> Prop) (f : A -> A) k x :
  P x -> (forall y, P y -> P (f y)) -> P (iter k f x).
Proof. revert x; induction k as [|k IH]; intros x Hx Hf; simpl; auto. Qed.

Lemma oscInv_transfer s s' :
  oscInv s -> numOsc s' = numOsc s -> ampOsc s' = ampOsc s -> curOsc s' = curOsc s ->
  edgLen s' = edgLen s -> edgVal s' = edgVal s ->
  length (edgIdx s') = MAX_OSC -> length (edgeDC s') = MAX_OSC ->
  length (note s') = MAX_OSC -> oscInv s'.
Proof.
  intros (W & Hn & Ha & Hc & Hv) E1 E2 E3 E4 E5 L1 L2 L3.
  destruct W as (_ & _ & W3 & W4 & _).
  unfold oscInv, wf, edgeValsOK, valOf, lenOf in *.
  rewrite E1, E2, E3, E4, E5; repeat split; auto; lia.
Qed.

Lemma setSteps_oscInv s t n0 n1 :
  oscInv s -> (t < MAX_OSC)%nat -> oscInv (setSteps s t n0 n1).
Proof.
  intros (W & Hn & Ha & Hc & Hv) Ht.
  destruct W as (W1 & W2 & W3 & W4 & W5).
  unfold oscInv, wf; cbn [setSteps set_edgVal set_edgLen edgIdx edgeDC edgLen edgVal
    note numOsc ampOsc curOsc]; rewrite !length_upd.
  split; [repeat split; auto|]. split; [auto|]. split; [auto|]. split; [auto|].
  intros i Hi; simpl in Hi.
  rewrite (setSteps_len s t i n0 n1) by lia.
  unfold valOf, setSteps; simpl.
  destruct (Nat.eqb_spec t i) as [<-|Hne].
  - rewrite get_upd_same by (rewrite ?length_upd; lia).
    specialize (Hv t Hi); unfold valOf in Hv; unfold valOf; simpl; rewrite Hv; reflexivity.
  - rewrite get_upd_other by auto. apply Hv; auto.
Qed.

Lemma calcEdges_oscInv s t P :
  oscInv s -> (t < MAX_OSC)%nat -> oscInv (calcEdges s t P).
Proof.
  intros H Ht; destruct (calcEdges_shape s t P) as (a & b & ->).
  apply setSteps_oscInv; auto.
  destruct (P <=? 1); auto; apply setSteps_oscInv; auto.
Qed.

Lemma lockStep_oscInv t s i :
  oscInv s -> oscInv (lockStep t s i).
Proof.
  intros H; unfold lockStep.
  destruct (Nat.eqb t i); [exact H|]; destruct (negb _); [exact H|].
  destruct (proj1 H) as (W1 & W2 & _ & _ & W5).
  eapply oscInv_transfer; eauto; simpl; rewrite ?length_upd; auto.
Qed.

Lemma setNote_oscInv s t n :
  oscInv s -> (t < MAX_OSC)%nat -> oscInv (setNote s t n).
Proof.
  intros H Ht; unfold setNote.
  destruct (freeze s); [exact H|].
  destruct (n =? NoNote).
  - assert (H1 : oscInv (set_edgIdx s (upd (edgIdx s) t 0))).
    { destruct (proj1 H) as (W1 & W2 & _ & _ & W5).
      eapply oscInv_transfer; eauto; simpl; rewrite ?length_upd; auto. }
    pose proof (setSteps_oscInv _ t 0 0 H1 Ht) as H2.
    destruct (proj1 H2) as (W1 & W2 & _ & _ & W5).
    eapply oscInv_transfer; eauto; simpl; rewrite ?length_upd; auto.
  - unfold phaseLock; apply fold_left_inv; [|intros y b _ Hy; apply lockStep_oscInv; auto].
    apply calcEdges_oscInv; auto.
    destruct (proj1 H) as (W1 & W2 & _ & _ & W5).
    eapply oscInv_transfer; eauto; simpl; rewrite ?length_upd; auto.
Qed.

Lemma setPW_oscInv s x : oscInv s -> oscInv (setPW s x).
Proof.
  intros H; unfold setPW.
  assert (H1 : forall y, oscInv (set_pW s y)).
  { intros y; destruct (proj1 H) as (W1 & W2 & _ & _ & W5).
    eapply oscInv_transfer; eauto. }
  apply fold_left_inv; [apply H1|].
  intros y b Hb Hy; apply calcEdges_oscInv; auto.
  apply in_seq in Hb; destruct (H1 0) as (_ & Hn & _); simpl in *; unfold MAX_OSC in *; lia.
Qed.

Lemma setCurOsc_oscInv s ith :
  oscInv s -> 0 <= ith -> oscInv (setCurOsc s ith).
Proof.
  intros (W & Hn & Ha & Hc & Hv) Hi; unfold oscInv, setCurOsc, edgeValsOK, valOf, lenOf, wf in *;
    simpl; repeat split; try tauto.
  - destruct (Z.geb_spec ith (numOsc s)); [|lia]. rewrite byteOf_id by (unfold MAX_OSC in *; lia); lia.
  - destruct (Z.geb_spec ith (numOsc s)); [|lia]. rewrite byteOf_id by (unfold MAX_OSC in *; lia); lia.
Qed.

Lemma oscTick_oscInv s t : oscInv s -> oscInv (fst (oscTick s t)).
Proof.
  intros H; destruct (oscTick_frame s t) as (F1 & F2 & F3 & F4 & F5 & _).
  destruct (proj1 H) as (W1 & W2 & _ & _ & W5).
  eapply oscInv_transfer; eauto; unfold oscTick; destruct (_ =? 0); simpl;
    rewrite ?length_upd; auto.
Qed.

Lemma tickState_oscInv s : oscInv s -> oscInv (tickState s).
Proof.
  intros H; unfold tickState, sampleTick, slotTicks.
  assert (G : oscInv (fst (fold_left slotStep (seq 0 (Z.to_nat (numOsc s))) (s, [])))).
  { apply (fold_left_inv (fun p => oscInv (fst p))); [exact H|].
    intros [y vs] b _ Hy; unfold slotStep.
    destruct (oscTick y b) as [y1 v] eqn:E; simpl.
    replace y1 with (fst (oscTick y b)) by (rewrite E; reflexivity).
    apply oscTick_oscInv; auto. }
  destruct (fold_left slotStep _ _); exact G.
Qed.

Lemma output_oscInv n s : oscInv s -> oscInv (fst (output n s)).
Proof. intros H; rewrite output_iter; apply iter_inv; auto using tickState_oscInv. Qed.

Lemma setPhaseTail_oscInv s t r : oscInv s -> oscInv (setPhaseTail s t r).
Proof.
  intros H; destruct (proj1 H) as (W1 & W2 & _ & _ & W5).
  unfold setPhaseTail; destruct (_ <? _);
    eapply oscInv_transfer; eauto; simpl; rewrite ?length_upd; auto.
Qed.

Lemma setNumOsc_loop amp is s :
  NoDup is ->
  let r := fold_left (fun s i =>
      let '(l0, l1) := lenOf s i in
      let v1 := if (l0 =? 0) || (l1 =? 0) then amp else charOf (- amp) in
      set_edgVal s (upd (edgVal s) i (amp, v1))) is s in
  r = set_edgVal s (edgVal r) /\ length (edgVal r) = length (edgVal s) /\
  forall i, (i < length (edgVal s))%nat ->
    valOf r i = if existsb (Nat.eqb i) is
                then (amp, if (fst (lenOf s i) =? 0) || (snd (lenOf s i) =? 0)
                           then amp else charOf (- amp))
                else valOf s i.
Proof.
  revert s; induction is as [|j is IH]; intros s Hnd; cbn [fold_left existsb].
  - destruct s; split; reflexivity || split; reflexivity || auto.
  - inversion Hnd as [|? ? Hj Hnd']; subst.
    destruct (lenOf s j) as [l0 l1] eqn:El.
    set (s1 := set_edgVal s (upd (edgVal s) j (amp,
                 if (l0 =? 0) || (l1 =? 0) then amp else charOf (- amp)))).
    destruct (IH s1 Hnd') as (E & L & V).
    fold s1. set (r := fold_left _ is s1) in *.
    split; [rewrite E; reflexivity|].
    split; [rewrite L; unfold s1; simpl; apply length_upd|].
    intros i Hi.
    assert (Hl1 : lenOf s1 i = lenOf s i) by reflexivity.
    rewrite V by (unfold s1; simpl; rewrite length_upd; auto).
    rewrite Hl1.
    destruct (Nat.eqb_spec i j) as [->|Hne]; simpl.
    + destruct (existsb (Nat.eqb j) is) eqn:Ex.
      * apply existsb_exists in Ex; destruct Ex as (x & Hx & Hjx).
        apply Nat.eqb_eq in Hjx; subst; contradiction.
      * unfold s1, valOf; simpl; rewrite get_upd_same by auto; rewrite El; reflexivity.
    + destruct (existsb (Nat.eqb i) is); [reflexivity|].
      unfold s1, valOf; simpl; rewrite get_upd_other by auto; reflexivity.
Qed.

Lemma setNumOsc_spec s n :
  wf s -> 0 <= n <= 255 -> 0 <= curOsc s ->
  let n' := if n =? 0 then 1 else Z.min n (Z.of_nat MAX_OSC) in
  let s' := setNumOsc s n in
  oscInv s' /\ numOsc s' = n' /\ ampOsc s' = 127 / n' /\
  curOsc s' = (if curOsc s >=? n' then n' - 1 else curOsc s) /\
  edgLen s' = edgLen s /\ edgIdx s' = edgIdx s /\ edgeDC s' = edgeDC s /\
  note s' = note s /\ pW s' = pW s /\ freeze s' = freeze s.
Proof.
  intros (W1 & W2 & W3 & W4 & W5) Hn Hc n' s'.
  assert (En : (if (if n =? 0 then 1 else n) >? Z.of_nat MAX_OSC then Z.of_nat MAX_OSC
                else if n =? 0 then 1 else n) = n').
  { unfold n'; unfold MAX_OSC; simpl.
    destruct (Z.eqb_spec n 0); [reflexivity|].
    destruct (Z.gtb_spec n 4); lia. }
  assert (Hn' : 1 <= n' <= 4) by (unfold n', MAX_OSC; simpl; destruct (Z.eqb_spec n 0); lia).
  unfold s', setNumOsc; cbv zeta; rewrite En.
  set (s0 := mkOsc n' (if curOsc s >=? n' then n' - 1 else curOsc s) (127 / n')
               (edgIdx s) (edgeDC s) (edgLen s) (edgVal s) (note s) (pW s) (freeze s)).
  destruct (setNumOsc_loop (127 / n') (seq 0 (Z.to_nat n')) s0 (seq_NoDup _ _))
    as (E & L & V).
  set (r := fold_left _ _ s0) in *.
  rewrite E; cbn [set_edgVal numOsc curOsc ampOsc edgLen edgIdx edgeDC note pW freeze].
  split; [|repeat split; reflexivity].
  unfold oscInv, wf; cbn [set_edgVal numOsc curOsc ampOsc edgLen edgIdx edgeDC note pW freeze edgVal].
  rewrite L; unfold s0; cbn [numOsc curOsc ampOsc edgLen edgIdx edgeDC note edgVal].
  split; [repeat split; auto|].
  split; [unfold MAX_OSC; simpl; lia|].
  split; [reflexivity|].
  split; [destruct (Z.geb_spec (curOsc s) n'); lia|].
  intros i Hi; cbn [set_edgVal numOsc] in Hi.
  transitivity (valOf r i); [reflexivity|].
  assert (Hi4 : (Z.to_nat n' <= 4)%nat)
    by (change 4%nat with (Z.to_nat 4); apply Z2Nat.inj_le; lia).
  rewrite V by (unfold s0; simpl; unfold MAX_OSC in *; lia).
  replace (existsb (Nat.eqb i) (seq 0 (Z.to_nat n'))) with true.
  - reflexivity.
  - symmetry; apply existsb_exists; exists i; split; [apply in_seq; lia | apply Nat.eqb_refl].
Qed.

Lemma setNote_NoNote_slots s t :
  wf s -> (t < MAX_OSC)%nat -> freeze s = false ->
  let s' := setNote s t NoNote in
  wf s' /\ freeze s' = false /\ numOsc s' = numOsc s /\ curOsc s' = curOsc s /\
  ampOsc s' = ampOsc s /\ pW s' = pW s /\
  forall j, lenOf s' j = (if Nat.eqb t j then (0, 0) else lenOf s j) /\
            idxOf s' j = (if Nat.eqb t j then 0 else idxOf s j) /\
            noteOf s' j = (if Nat.eqb t j then NoNote else noteOf s j).
Proof.
  intros (W1 & W2 & W3 & W4 & W5) Ht Hf s'.
  unfold s', setNote; rewrite Hf; cbn [Z.eqb NoNote Pos.eqb].
  unfold wf, setSteps; cbn [set_note set_edgVal set_edgLen set_edgIdx edgIdx edgeDC
    edgLen edgVal note numOsc curOsc ampOsc pW freeze].
  rewrite !length_upd.
  split; [repeat split; auto|]. do 5 (split; [auto|]).
  intros j; unfold lenOf, idxOf, noteOf; cbn [set_note set_edgVal set_edgLen set_edgIdx
    edgIdx edgLen note].
  destruct (Nat.eqb_spec t j) as [<-|Hne].
  - rewrite !get_upd_same by (rewrite ?length_upd; lia); auto.
  - rewrite !get_upd_other by auto; auto.
Qed.

Lemma resetOsc_spec s :
  wf s -> 0 <= curOsc s ->
  let s' := resetOsc s in
  oscInv s' /\ numOsc s' = 1 /\ curOsc s' = 0 /\ ampOsc s' = 127 /\ pW s' = 128 /\
  freeze s' = false /\
  forall t, (t < MAX_OSC)%nat ->
    lenOf s' t = (0, 0) /\ idxOf s' t = 0 /\ noteOf s' t = NoNote.
Proof.
  intros Hwf Hc s'.
  set (s1 := mkOsc (numOsc s) (curOsc s) (ampOsc s) (edgIdx s) (edgeDC s)
               (edgLen s) (edgVal s) (note s) 128 false).
  assert (Hwf1 : wf s1) by exact Hwf.
  destruct (setNumOsc_spec s1 1 Hwf1 ltac:(lia) Hc)
    as (I2 & N2 & A2 & C2 & _ & _ & _ & _ & P2 & F2).
  cbn zeta in *. simpl in N2, A2, C2.
  set (s2 := setNumOsc s1 1) in *.
  assert (Hs' : s' = setNote (setNote (setNote (setNote s2 0 NoNote) 1 NoNote) 2 NoNote)
                       3 NoNote) by reflexivity.
  clearbody s'; subst s'.
  assert (I3 : forall x t, oscInv x -> (t < MAX_OSC)%nat -> oscInv (setNote x t NoNote))
    by (intros; apply setNote_oscInv; auto).
  split; [apply I3; [apply I3; [apply I3; [apply I3|]|]|]; unfold MAX_OSC; auto; lia|].
  destruct (setNote_NoNote_slots s2 0 (proj1 I2) ltac:(unfold MAX_OSC; lia) F2)
    as (Wa & Fa & Na & Ca & Aa & Pa & Sa).
  destruct (setNote_NoNote_slots _ 1 Wa ltac:(unfold MAX_OSC; lia) Fa)
    as (Wb & Fb & Nb & Cb & Ab & Pb & Sb).
  destruct (setNote_NoNote_slots _ 2 Wb ltac:(unfold MAX_OSC; lia) Fb)
    as (Wc & Fc & Nc & Cc & Ac & Pc & Sc).
  destruct (setNote_NoNote_slots _ 3 Wc ltac:(unfold MAX_OSC; lia) Fc)
    as (Wd & Fd & Nd & Cd & Ad & Pd & Sd).
  rewrite Nd, Nc, Nb, Na, Cd, Cc, Cb, Ca, Ad, Ac, Ab, Aa, Pd, Pc, Pb, Pa, Fd.
  rewrite N2, C2, A2, P2.
  change (Z.min 1 4) with 1.
  split; [reflexivity|]. split; [destruct (Z.geb_spec (curOsc s) 1); lia|].
  do 3 (split; [reflexivity|]).
  - intros t Ht; unfold MAX_OSC in Ht.
    destruct (Sd t) as (L4 & X4 & O4), (Sc t) as (L3 & X3 & O3),
             (Sb t) as (L2 & X2 & O2), (Sa t) as (L1 & X1 & O1).
    rewrite L4, X4, O4, L3, X3, O3, L2, X2, O2, L1, X1, O1.
    destruct t as [|[|[|[|t]]]]; simpl; auto; lia.
Qed.

Lemma oscReach_oscInv s : oscReach s -> oscInv s.
Proof.
  induction 1 as [s Hwf Hc|s e s' _ IH Hstep].
  - exact (proj1 (resetOsc_spec s Hwf Hc)).
  - destruct Hstep as [s ith Hi|s b|s inp Hi|s inp s' Hi Hp|s inp Hi|s inp Hi|s|s n].
    + apply setCurOsc_oscInv; auto; lia.
    + destruct (proj1 IH) as (W1 & W2 & _ & _ & W5).
      eapply oscInv_transfer; eauto.
    + apply setNote_oscInv; auto.
      destruct IH as (_ & Hn & _ & Hc & _); unfold MAX_OSC in *; simpl in *; lia.
    + destruct Hp as (r & _ & ->); apply setPhaseTail_oscInv; auto.
    + destruct IH as (W & _ & _ & Hc & _).
      exact (proj1 (setNumOsc_spec s inp W Hi ltac:(lia))).
    + apply setPW_oscInv; auto.
    + destruct IH as (W & _ & _ & Hc & _).
      exact (proj1 (resetOsc_spec s W ltac:(lia))).
    + apply output_oscInv; auto.
Qed.

(** ** Samples of [output] *)

Lemma oscTick_phase_other s t j :
  j <> t -> phaseOf (fst (oscTick s t)) j = phaseOf s j.
Proof.
  intros Hj; unfold oscTick, phaseOf, idxOf, dcOf.
  destruct (_ =? 0); simpl; rewrite ?get_upd_other by auto; reflexivity.
Qed.

Lemma oscTick_out s t :
  (t < length (edgIdx s))%nat -> (t < length (edgeDC s))%nat ->
  phaseOf (fst (oscTick s t)) t = tickPh (lenOf s t) (phaseOf s t) /\
  snd (oscTick s t) = slotOut s t.
Proof.
  intros H1 H2.
  destruct (oscTick_slot s t H1 H2) as (_ & _ & _ & Ph).
  assert (Ph' : phaseOf (fst (oscTick s t)) t = tickPh (lenOf s t) (phaseOf s t))
    by exact Ph.
  split; [exact Ph'|].
  unfold slotOut; rewrite <- Ph'.
  unfold oscTick; destruct (_ =? 0); reflexivity.
Qed.

Lemma slotTicks_out is s vs :
  NoDup is ->
  (forall i, In i is -> (i < length (edgIdx s))%nat /\ (i < length (edgeDC s))%nat) ->
  let r := fold_left slotStep is (s, vs) in
  snd r = vs ++ map (slotOut s) is /\
  (forall j, phaseOf (fst r) j =
             if existsb (Nat.eqb j) is then tickPh (lenOf s j) (phaseOf s j)
             else phaseOf s j) /\
  length (edgIdx (fst r)) = length (edgIdx s) /\
  length (edgeDC (fst r)) = length (edgeDC s).
Proof.
  revert s vs; induction is as [|i is IH]; intros s vs Hnd Hin; cbn [fold_left existsb map].
  - rewrite app_nil_r; repeat split; auto.
  - inversion Hnd as [|? ? Hi Hnd']; subst.
    destruct (Hin i (or_introl eq_refl)) as (L1 & L2).
    destruct (oscTick_out s i L1 L2) as (Pi & Vi).
    destruct (oscTick_slot s i L1 L2) as (_ & M1 & M2 & _).
    destruct (oscTick_frame s i) as (F1 & F2 & _).
    replace (slotStep (s, vs) i) with (fst (oscTick s i), vs ++ [snd (oscTick s i)])
      by (unfold slotStep; destruct (oscTick s i); reflexivity).
    set (s1 := fst (oscTick s i)) in *.
    destruct (IH s1 (vs ++ [snd (oscTick s i)]) Hnd') as (S & P & N1 & N2).
    { intros j Hj; rewrite M1, M2; apply Hin; simpl; auto. }
    assert (Oth : forall j, j <> i -> slotOut s1 j = slotOut s j).
    { intros j Hj; unfold slotOut, valOf, lenOf; rewrite F1, F2.
      unfold s1; rewrite oscTick_phase_other by auto; reflexivity. }
    split; [|split; [|split; [rewrite N1; auto | rewrite N2; auto]]].
    + rewrite S, Vi, <- app_assoc; simpl; f_equal; f_equal.
      apply map_ext_in; intros j Hj; apply Oth; intros ->; contradiction.
    + intros j; rewrite P.
      assert (Hl : lenOf s1 j = lenOf s j) by (unfold lenOf; rewrite F1; reflexivity).
      destruct (Nat.eqb_spec j i) as [->|Hne]; simpl.
      * replace (existsb (Nat.eqb i) is) with false; [exact Pi|].
        symmetry; apply not_true_iff_false; intros Ex.
        apply existsb_exists in Ex; destruct Ex as (x & Hx & Hix).
        apply Nat.eqb_eq in Hix; subst; contradiction.
      * assert (Hp : phaseOf s1 j = phaseOf s j)
          by (unfold s1; apply oscTick_phase_other; auto).
        rewrite Hl, Hp; destruct (existsb _ _); reflexivity.
Qed.

Lemma sampleTick_out s :
  oscInv s ->
  snd (sampleTick s) =
    fold_left (fun outVal v => charOf (outVal + v))
      (map (slotOut s) (seq 0 (Z.to_nat (numOsc s)))) 0 /\
  forall t, (t < Z.to_nat (numOsc s))%nat ->
    phaseOf (tickState s) t = tickPh (lenOf s t) (phaseOf s t).
Proof.
  intros ((W1 & W2 & _) & Hn & _).
  assert (Hn4 : (Z.to_nat (numOsc s) <= 4)%nat)
    by (change 4%nat with (Z.to_nat 4); apply Z2Nat.inj_le; unfold MAX_OSC in *; simpl in *; lia).
  destruct (slotTicks_out (seq 0 (Z.to_nat (numOsc s))) s [] (seq_NoDup _ _))
    as (S & P & _).
  { intros i Hi; apply in_seq in Hi; unfold MAX_OSC in *; lia. }
  unfold tickState, sampleTick, slotTicks.
  destruct (fold_left slotStep _ _) as [r vs]; simpl in *.
  split; [rewrite S; reflexivity|].
  intros t Ht; rewrite P.
  replace (existsb (Nat.eqb t) (seq 0 (Z.to_nat (numOsc s)))) with true; [reflexivity|].
  symmetry; apply existsb_exists; exists t; split; [apply in_seq; lia | apply Nat.eqb_refl].
Qed.

(** the [char] accumulator of [output] does not wrap while the partial
    sums stay within [-127, 127] *)
Lemma charSum_exact vs acc a m :
  0 <= a -> 0 <= m -> Forall (fun v => - a <= v <= a) vs ->
  - (m * a) <= acc <= m * a -> (m + Z.of_nat (length vs)) * a <= 127 ->
  fold_left (fun outVal v => charOf (outVal + v)) vs acc = fold_left Z.add vs acc /\
  - ((m + Z.of_nat (length vs)) * a) <= fold_left Z.add vs acc <=
    (m + Z.of_nat (length vs)) * a.
Proof.
  revert acc m; induction vs as [|v vs IH]; intros acc m Ha Hm Hf Hacc Hb;
    cbn [fold_left length] in *.
  - rewrite Z.add_0_r; auto.
  - inversion Hf as [|? ? Hv Hf']; subst.
    rewrite Nat2Z.inj_succ in *.
    rewrite charOf_id by nia.
    destruct (IH (acc + v) (m + 1) Ha ltac:(lia) Hf' ltac:(nia) ltac:(nia)) as (E & B).
    rewrite E; split; [reflexivity|].
    replace (m + Z.succ (Z.of_nat (length vs))) with (m + 1 + Z.of_nat (length vs)) by lia.
    exact B.
Qed.

Lemma slotOut_bound s i :
  oscInv s -> (i < Z.to_nat (numOsc s))%nat -> - ampOsc s <= slotOut s i <= ampOsc s.
Proof.
  intros (_ & Hn & Ha & _ & Hv) Hi.
  assert (Ha' : 0 <= ampOsc s <= 127).
  { rewrite Ha; split; [apply Z.div_pos; lia | apply Z.div_le_upper_bound; lia]. }
  unfold slotOut; rewrite (Hv i Hi).
  rewrite charOf_id by lia.
  unfold sel; destruct (_ =? 0); simpl; [lia|].
  destruct (_ || _); lia.
Qed.

Lemma sampleTick_exact s :
  oscInv s ->
  snd (sampleTick s) = fold_left Z.add (map (slotOut s) (seq 0 (Z.to_nat (numOsc s)))) 0 /\
  -127 <= snd (sampleTick s) <= 127.
Proof.
  intros H.
  destruct (sampleTick_out s H) as (E & _).
  destruct H as (W & Hn & Ha & Hc & Hv) eqn:EH.
  assert (Hna : numOsc s * ampOsc s <= 127) by (rewrite Ha; apply Z.mul_div_le; lia).
  assert (Ha' : 0 <= ampOsc s) by (rewrite Ha; apply Z.div_pos; lia).
  assert (Hf : Forall (fun v => - ampOsc s <= v <= ampOsc s)
                 (map (slotOut s) (seq 0 (Z.to_nat (numOsc s))))).
  { apply Forall_forall; intros v Hin; apply in_map_iff in Hin.
    destruct Hin as (i & <- & Hi); apply in_seq in Hi.
    apply slotOut_bound; auto; lia. }
  destruct (charSum_exact _ 0 (ampOsc s) 0 Ha' ltac:(lia) Hf ltac:(lia)) as (S & B).
  { rewrite length_map, length_seq, Z2Nat.id by lia; lia. }
  rewrite length_map, length_seq, Z2Nat.id in B by lia.
  rewrite E, S; split; [reflexivity|].
  nia.
Qed.

Lemma output_nth k s j :
  (j < k)%nat -> nth j (snd (output k s)) 0 = snd (sampleTick (iter j tickState s)).
Proof.
  revert s j; induction k as [|k IH]; intros s j Hj; [lia|].
  cbn [output]. unfold tickState.
  destruct (sampleTick s) as [s1 v] eqn:E.
  destruct (output k s1) as [s2 vs] eqn:Eo.
  destruct j as [|j]; simpl; [rewrite E; reflexivity|].
  rewrite E; simpl.
  specialize (IH s1 j ltac:(lia)); rewrite Eo in IH; exact IH.
Qed.

Lemma output_length k s : length (snd (output k s)) = k.
Proof.
  revert s; induction k as [|k IH]; intros s; [reflexivity|].
  cbn [output]; destruct (sampleTick s) as [s1 v].
  specialize (IH s1); destruct (output k s1); simpl in *; lia.
Qed.

(** one [output] tick moves a slot one sample along its square wave *)
Lemma tickPh_wave l0 l1 r :
  1 <= l0 <= 255 -> 1 <= l1 <= 255 -> 0 <= r < l0 + l1 ->
  tickPh (l0, l1) (wavePhase l0 l1 r) = wavePhase l0 l1 ((r + 1) mod (l0 + l1)).
Proof.
  intros H0 H1 Hr; unfold tickPh, wavePhase.
  destruct (Z.ltb_spec r l0); cbn [fst snd].
  - rewrite byteOf_id by lia.
    rewrite Z.mod_small by lia.
    destruct (Z.eqb_spec (l0 - r - 1) 0).
    + change (Z.lxor 0 1) with 1; unfold sel; simpl.
      destruct (Z.ltb_spec (r + 1) l0); [lia|]. f_equal; lia.
    + destruct (Z.ltb_spec (r + 1) l0); [|lia]. f_equal; lia.
  - rewrite byteOf_id by lia.
    destruct (Z.eqb_spec (l0 + l1 - r - 1) 0).
    + change (Z.lxor 1 1) with 0; unfold sel; simpl.
      replace (r + 1) with (0 + 1 * (l0 + l1)) by lia.
      rewrite Z.mod_add, Z.mod_0_l by lia.
      destruct (Z.ltb_spec 0 l0); [|lia]. f_equal; lia.
    + rewrite Z.mod_small by lia.
      destruct (Z.ltb_spec (r + 1) l0); [lia|]. f_equal; lia.
Qed.

Lemma iter_tickState_inv k s :
  oscInv s -> oscInv (iter k tickState s) /\
  lenOf (iter k tickState s) = lenOf s /\ valOf (iter k tickState s) = valOf s /\
  numOsc (iter k tickState s) = numOsc s /\ ampOsc (iter k tickState s) = ampOsc s.
Proof.
  intros H; destruct (iter_sampleTick_frame k s) as (F1 & F2 & F3 & F4).
  split; [apply iter_inv; auto using tickState_oscInv|].
  unfold lenOf, valOf; rewrite F1, F2, F3, F4; auto.
Qed.

Lemma getPhase_wave x t l0 l1 r :
  lenOf x t = (l0, l1) -> 0 <= l0 <= 255 -> 0 <= l1 <= 255 -> 0 <= r < l0 + l1 ->
  phaseOf x t = wavePhase l0 l1 r ->
  getPhase x t = if r <? l0 then r + l0 else r - l0.
Proof.
  intros El H0 H1 Hr Ph.
  assert (Ei : idxOf x t = fst (phaseOf x t)) by reflexivity.
  assert (Ed : dcOf x t = snd (phaseOf x t)) by reflexivity.
  unfold getPhase; rewrite Ei, Ed, Ph, El; unfold wavePhase.
  destruct (Z.ltb_spec r l0); simpl; unfold sel; simpl; rewrite wordOf_id by lia; lia.
Qed.

Lemma setPhaseTail_wave s t r :
  (t < length (edgIdx s))%nat -> (t < length (edgeDC s))%nat ->
  0 <= fst (lenOf s t) <= 255 -> 0 <= snd (lenOf s t) <= 255 -> 0 <= r < periodOf s t ->
  phaseOf (setPhaseTail s t r) t = wavePhase (fst (lenOf s t)) (snd (lenOf s t)) r /\
  lenOf (setPhaseTail s t r) t = lenOf s t.
Proof.
  intros H1 H2 Hl0 Hl1 Hr; split; [|unfold setPhaseTail; destruct (_ <? _); reflexivity].
  rewrite setPhaseTail_phase by auto; unfold wavePhase, periodOf in *.
  destruct (Z.ltb_spec r (fst (lenOf s t))); rewrite byteOf_id by lia; reflexivity.
Qed.

Lemma setPhase_wave s t phase s' :
  wf s -> (t < MAX_OSC)%nat -> 0 <= phase < 65536 ->
  0 <= fst (lenOf s t) <= 255 -> 0 <= snd (lenOf s t) <= 255 ->
  setPhase s t phase s' ->
  0 < periodOf s t /\
  phaseOf s' t = wavePhase (fst (lenOf s t)) (snd (lenOf s t)) (phase mod periodOf s t) /\
  lenOf s' t = lenOf s t.
Proof.
  intros (W1 & W2 & _) Ht Hph Hl0 Hl1 (r & Hr & ->).
  assert (Hw : wordOf (periodOf s t) = periodOf s t)
    by (apply wordOf_id; unfold periodOf; lia).
  rewrite Hw in Hr.
  assert (HP : 0 < periodOf s t).
  { destruct (Z.eq_dec (periodOf s t) 0) as [E|E].
    - exfalso; exact (normLoop_zero _ _ _ Hr E ltac:(lia)).
    - unfold periodOf in *; lia. }
  apply normLoop_mod in Hr; [|lia|lia]; subst r.
  split; [exact HP|].
  apply setPhaseTail_wave; unfold MAX_OSC in *; try lia.
  apply Z.mod_pos_bound; lia.
Qed.


Lemma calcEdges_val_other s t t' P :
  t <> t' -> valOf (calcEdges s t P) t' = valOf s t'.
Proof.
  intros Hne; destruct (calcEdges_shape s t P) as (a & b & ->).
  unfold setSteps, valOf; simpl; rewrite get_upd_other by auto.
  destruct (P <=? 1); simpl; rewrite ?get_upd_other by auto; reflexivity.
Qed.

Lemma setNote_other s t n j :
  wf s -> (t < MAX_OSC)%nat -> j <> t ->
  let s' := setNote s t n in
  lenOf s' j = lenOf s j /\ valOf s' j = valOf s j /\ noteOf s' j = noteOf s j /\
  phaseOf s' j = phaseOf s j /\
  numOsc s' = numOsc s /\ curOsc s' = curOsc s /\ ampOsc s' = ampOsc s /\
  pW s' = pW s /\ freeze s' = freeze s.
Proof.
  intros Hwf Ht Hj s'; unfold s', setNote.
  destruct (freeze s) eqn:Hf; [repeat split; auto|].
  destruct (n =? NoNote).
  - unfold setSteps, lenOf, valOf, noteOf, phaseOf, idxOf, dcOf; simpl.
    rewrite !get_upd_other by auto; repeat split; auto.
  - set (s1 := set_note s (upd (note s) t (wrapNote n))).
    set (s2 := calcEdges s1 t (nth (Z.to_nat (wrapNote n)) NotePeriods 0)).
    destruct (calcEdges_frame s1 t (nth (Z.to_nat (wrapNote n)) NotePeriods 0))
      as (F1 & F2 & F3 & F4 & F5 & F6 & F7 & _); fold s2 in F1, F2, F3, F4, F5, F6, F7.
    assert (Hlk : forall is x, numOsc (fold_left (lockStep t) is x) = numOsc x /\
                    curOsc (fold_left (lockStep t) is x) = curOsc x /\
                    ampOsc (fold_left (lockStep t) is x) = ampOsc x /\
                    pW (fold_left (lockStep t) is x) = pW x /\
                    freeze (fold_left (lockStep t) is x) = freeze x /\
                    phaseOf (fold_left (lockStep t) is x) j = phaseOf x j).
    { intros is; induction is as [|i is IH]; intros x; [simpl; repeat split|]. simpl.
      destruct (IH (lockStep t x i)) as (A1 & A2 & A3 & A4 & A5 & A6).
      rewrite A1, A2, A3, A4, A5, A6, lockStep_phase_other by auto.
      unfold lockStep; destruct (Nat.eqb t i); [repeat split|]; destruct (negb _); repeat split. }
    destruct (Hlk (seq 0 (Z.to_nat (numOsc s2))) s2) as (A1 & A2 & A3 & A4 & A5 & A6).
    destruct (phaseLock_frame s2 t) as (P1 & P2 & P3 & _).
    unfold lenOf, valOf, noteOf in *.
    rewrite P1, P2, P3; unfold phaseLock; rewrite A1, A2, A3, A4, A5, A6.
    assert (E2 : curOsc s2 = curOsc s1) by (unfold s2, calcEdges; destruct (_ >? 255);
                 destruct (_ <=? 1); reflexivity).
    rewrite F4, F5, F6, F7, E2, F3.
    assert (L2 : lenOf s2 j = lenOf s1 j).
    { apply calcEdges_len_other; auto; unfold s1; simpl.
      destruct Hwf as (_ & _ & W3 & _); unfold MAX_OSC in *; lia. }
    assert (V2 : valOf s2 j = valOf s1 j) by (apply calcEdges_val_other; auto).
    unfold lenOf, valOf in L2, V2; rewrite L2, V2.
    unfold phaseOf, idxOf, dcOf; rewrite F1, F2.
    unfold s1; simpl; rewrite get_upd_other by auto; repeat split; auto.
Qed.

(** ** Further properties of the section and the synth *)

(** a concrete section satisfies [oscInv]: evaluate every field *)
Ltac osc_inv_concrete :=
  unfold oscInv, wf, edgeValsOK; vm_compute;
  repeat split; try discriminate;
  intros i Hi; destruct i as [|[|[|[|i]]]]; vm_compute; reflexivity || lia.

(** X1: [calcEdges( t, P )] for any period from 2 to 510 (what two byte
    edges can hold): the two edges are bytes summing to [P], the first one
    is [max 1 (P * pW / 256)] unless that leaves more than 255 for the
    second; no other slot's edges or edge values change. *)
Theorem calcEdges_any_period s t P :
  (t < length (edgLen s))%nat -> 2 <= P <= 510 -> 1 <= pW s <= 128 ->
  (exists h l, lenOf (calcEdges s t P) t = (h, l) /\
     h + l = P /\ 1 <= h <= 255 /\ 0 <= l <= 255 /\
     h = (if P - Z.max 1 (P * pW s / 256) >? 255 then P - 255
          else Z.max 1 (P * pW s / 256))) /\
  (forall t', t' <> t ->
     lenOf (calcEdges s t P) t' = lenOf s t' /\ valOf (calcEdges s t P) t' = valOf s t').
Proof.
  intros Ht HP Hpw; split; [apply calcEdges_len_spec; auto|].
  intros t' Hne; split; [apply calcEdges_len_other | apply calcEdges_val_other]; auto.
Qed.

Lemma calcEdges_any_period_witness :
  (1 < length (edgLen (resetOsc zeroOsc)))%nat /\ 2 <= 500 <= 510 /\
  1 <= pW (resetOsc zeroOsc) <= 128 /\
  ((exists h l, lenOf (calcEdges (resetOsc zeroOsc) 1 500) 1 = (h, l) /\
     h + l = 500 /\ 1 <= h <= 255 /\ 0 <= l <= 255 /\
     h = (if 500 - Z.max 1 (500 * pW (resetOsc zeroOsc) / 256) >? 255 then 500 - 255
          else Z.max 1 (500 * pW (resetOsc zeroOsc) / 256))) /\
   (forall t', t' <> 1%nat ->
     lenOf (calcEdges (resetOsc zeroOsc) 1 500) t' = lenOf (resetOsc zeroOsc) t' /\
     valOf (calcEdges (resetOsc zeroOsc) 1 500) t' = valOf (resetOsc zeroOsc) t')).
Proof.
  assert (H1 : (1 < length (edgLen (resetOsc zeroOsc)))%nat) by (vm_compute; lia).
  assert (H2 : 2 <= 500 <= 510) by lia.
  assert (H3 : 1 <= pW (resetOsc zeroOsc) <= 128)
    by (replace (pW (resetOsc zeroOsc)) with 128 by (vm_compute; reflexivity); lia).
  exact (conj H1 (conj H2 (conj H3 (calcEdges_any_period _ 1 500 H1 H2 H3)))).
Defined.

(** X2: when every active slot has a period from 1 to 510, [setPW( x )]
    keeps the period of every slot: only the split of each period into
    its two edges changes. *)
Theorem setPW_keeps_active_periods s x :
  wf s -> (Z.to_nat (numOsc s) <= MAX_OSC)%nat ->
  (forall j, (j < Z.to_nat (numOsc s))%nat -> 1 <= periodOf s j <= 510) ->
  forall i, periodOf (setPW s x) i = periodOf s i.
Proof. apply setPW_keeps_periods. Qed.

Lemma setPW_keeps_active_periods_witness :
  let s := setNote (resetOsc zeroOsc) 0 0 in
  wf s /\ (Z.to_nat (numOsc s) <= MAX_OSC)%nat /\
  (forall j, (j < Z.to_nat (numOsc s))%nat -> 1 <= periodOf s j <= 510) /\
  forall i, periodOf (setPW s 10) i = periodOf s i.
Proof.
  intros s.
  assert (H1 : wf s) by (vm_compute; repeat split).
  assert (H2 : (Z.to_nat (numOsc s) <= MAX_OSC)%nat) by (vm_compute; lia).
  assert (H3 : forall j, (j < Z.to_nat (numOsc s))%nat -> 1 <= periodOf s j <= 510).
  { intros j Hj; vm_compute in Hj; destruct j as [|j]; [|lia].
    replace (periodOf s 0) with 360 by (vm_compute; reflexivity); lia. }
  exact (conj H1 (conj H2 (conj H3 (setPW_keeps_active_periods s 10 H1 H2 H3)))).
Defined.



(** X4: [setCurOsc( ith )] selects [ith] if it is below [numOsc] and the
    last oscillator otherwise; on a section with no oscillators
    ([numOsc = 0]) it stores 255.  It keeps the section invariant. *)
Theorem setCurOsc_range s ith :
  0 <= ith <= 255 -> 0 <= numOsc s <= 255 ->
  (1 <= numOsc s -> curOsc (setCurOsc s ith) = Z.min ith (numOsc s - 1)) /\
  (numOsc s = 0 -> curOsc (setCurOsc s ith) = 255) /\
  (oscInv s -> oscInv (setCurOsc s ith)).
Proof.
  intros Hi Hn; split; [|split].
  - intros H1; unfold setCurOsc; simpl.
    destruct (Z.geb_spec ith (numOsc s)); [rewrite byteOf_id by lia|]; lia.
  - intros H0; unfold setCurOsc; simpl; rewrite H0.
    destruct (Z.geb_spec ith 0); [reflexivity|lia].
  - intros H; apply setCurOsc_oscInv; auto; lia.
Qed.

Lemma setCurOsc_range_witness :
  0 <= 3 <= 255 /\ 0 <= numOsc (setNumOsc (resetOsc zeroOsc) 2) <= 255 /\
  ((1 <= numOsc (setNumOsc (resetOsc zeroOsc) 2) ->
    curOsc (setCurOsc (setNumOsc (resetOsc zeroOsc) 2) 3) =
      Z.min 3 (numOsc (setNumOsc (resetOsc zeroOsc) 2) - 1)) /\
   (numOsc (setNumOsc (resetOsc zeroOsc) 2) = 0 ->
    curOsc (setCurOsc (setNumOsc (resetOsc zeroOsc) 2) 3) = 255) /\
   (oscInv (setNumOsc (resetOsc zeroOsc) 2) ->
    oscInv (setCurOsc (setNumOsc (resetOsc zeroOsc) 2) 3))).
Proof.
  assert (H1 : 0 <= 3 <= 255) by lia.
  assert (H2 : 0 <= numOsc (setNumOsc (resetOsc zeroOsc) 2) <= 255)
    by (replace (numOsc (setNumOsc (resetOsc zeroOsc) 2)) with 2
          by (vm_compute; reflexivity); lia).
  exact (conj H1 (conj H2 (setCurOsc_range _ 3 H1 H2))).
Defined.

(** X5: [setNumOsc( n )], [n] a byte, sets [numOsc] to [n] clamped to
    [1, MAX_OSC], [ampOsc] to [127 / numOsc], moves [curOsc] to the last
    oscillator if it was past it, and sets up the section invariant: every
    active slot gets edge values [ampOsc] and [-ampOsc] ([ampOsc] twice if an
    edge is empty).  Edge lengths, edge states, notes, pulse width and
    freeze are left alone. *)
Theorem setNumOsc_sets_inv s n :
  wf s -> 0 <= n <= 255 -> 0 <= curOsc s ->
  let n' := if n =? 0 then 1 else Z.min n (Z.of_nat MAX_OSC) in
  let s' := setNumOsc s n in
  oscInv s' /\ numOsc s' = n' /\ ampOsc s' = 127 / n' /\
  curOsc s' = (if curOsc s >=? n' then n' - 1 else curOsc s) /\
  edgLen s' = edgLen s /\ edgIdx s' = edgIdx s /\ edgeDC s' = edgeDC s /\
  note s' = note s /\ pW s' = pW s /\ freeze s' = freeze s.
Proof. apply setNumOsc_spec. Qed.

Lemma setNumOsc_sets_inv_witness :
  wf zeroOsc /\ 0 <= 9 <= 255 /\ 0 <= curOsc zeroOsc /\
  (let n' := if 9 =? 0 then 1 else Z.min 9 (Z.of_nat MAX_OSC) in
   let s' := setNumOsc zeroOsc 9 in
   oscInv s' /\ numOsc s' = n' /\ ampOsc s' = 127 / n' /\
   curOsc s' = (if curOsc zeroOsc >=? n' then n' - 1 else curOsc zeroOsc) /\
   edgLen s' = edgLen zeroOsc /\ edgIdx s' = edgIdx zeroOsc /\
   edgeDC s' = edgeDC zeroOsc /\ note s' = note zeroOsc /\ pW s' = pW zeroOsc /\
   freeze s' = freeze zeroOsc).
Proof.
  assert (H1 : wf zeroOsc) by (vm_compute; repeat split).
  assert (H2 : 0 <= 9 <= 255) by lia.
  assert (H3 : 0 <= curOsc zeroOsc) by (simpl; lia).
  exact (conj H1 (conj H2 (conj H3 (setNumOsc_sets_inv zeroOsc 9 H1 H2 H3)))).
Defined.

(** X6: the reset command ['!'] leaves one oscillator of amplitude 127,
    [curOsc] 0, pulse width 128, freeze off, and all four slots with empty
    edges, edge index 0 and no note; the section then outputs the constant
    127 on every sample, not silence. *)
Theorem resetOsc_constant_output s :
  wf s -> 0 <= curOsc s ->
  let s' := resetOsc s in
  oscInv s' /\ numOsc s' = 1 /\ curOsc s' = 0 /\ ampOsc s' = 127 /\ pW s' = 128 /\
  freeze s' = false /\
  (forall t, (t < MAX_OSC)%nat ->
     lenOf s' t = (0, 0) /\ idxOf s' t = 0 /\ noteOf s' t = NoNote) /\
  forall k, snd (output k s') = repeat 127 k.
Proof.
  intros Hwf Hc s'.
  destruct (resetOsc_spec s Hwf Hc) as (I & N & C & A & P & F & Sl).
  fold s' in I, N, C, A, P, F, Sl.
  do 7 (split; [assumption|]).
  intros k; apply nth_ext with (d := 0) (d' := 0).
  { rewrite output_length, repeat_length; reflexivity. }
  intros j Hj; rewrite output_length in Hj.
  rewrite output_nth by auto; rewrite nth_repeat_lt by auto.
  destruct (iter_tickState_inv j s' I) as (Ij & Lj & Vj & Nj & _).
  destruct (sampleTick_exact _ Ij) as (E & _).
  rewrite E, Nj, N; simpl.
  unfold slotOut; rewrite Vj.
  destruct I as (_ & _ & _ & _ & Hv).
  rewrite (Hv 0%nat) by (rewrite N; simpl; lia).
  destruct (Sl 0%nat ltac:(unfold MAX_OSC; lia)) as (L0 & _).
  rewrite L0, A; simpl.
  apply sel_same.
Qed.

Lemma resetOsc_constant_output_witness :
  wf zeroOsc /\ 0 <= curOsc zeroOsc /\
  (let s' := resetOsc zeroOsc in
   oscInv s' /\ numOsc s' = 1 /\ curOsc s' = 0 /\ ampOsc s' = 127 /\ pW s' = 128 /\
   freeze s' = false /\
   (forall t, (t < MAX_OSC)%nat ->
      lenOf s' t = (0, 0) /\ idxOf s' t = 0 /\ noteOf s' t = NoNote) /\
   forall k, snd (output k s') = repeat 127 k).
Proof.
  assert (H1 : wf zeroOsc) by (vm_compute; repeat split).
  assert (H2 : 0 <= curOsc zeroOsc) by (simpl; lia).
  exact (conj H1 (conj H2 (resetOsc_constant_output zeroOsc H1 H2))).
Defined.

(** X7: every section reached from a reset by console commands
    ([0]..[3], [F], [n], [p], [N], [P], [!]) and [output] calls satisfies
    the section invariant: one to four oscillators, [ampOsc = 127 / numOsc],
    [curOsc < numOsc], and edge values [ampOsc] / [-ampOsc] on every active
    slot. *)
Theorem reachable_oscInv s : oscReach s -> oscInv s.
Proof. apply oscReach_oscInv. Qed.

Lemma reachable_oscInv_witness :
  let s := setNote (resetOsc zeroOsc) (Z.to_nat (curOsc (resetOsc zeroOsc))) 7 in
  oscReach s /\ oscInv s.
Proof.
  intros s.
  assert (H : oscReach s).
  { apply (reach_step (resetOsc zeroOsc) (EvNote 7)).
    - apply reach_reset; [vm_compute; repeat split | simpl; lia].
    - apply step_note; lia. }
  exact (conj H (reachable_oscInv s H)).
Defined.

(** X8: under the section invariant the [char] accumulator of [output]
    never wraps: sample [j] of the buffer is the exact sum of the values
    the active slots read in that tick, and lies in [-127, 127]. *)
Theorem output_exact_sum k s :
  oscInv s ->
  length (snd (output k s)) = k /\
  forall j, (j < k)%nat ->
    nth j (snd (output k s)) 0 =
      fold_left Z.add (map (slotOut (iter j tickState s)) (seq 0 (Z.to_nat (numOsc s)))) 0 /\
    -127 <= nth j (snd (output k s)) 0 <= 127.
Proof.
  intros H; split; [apply output_length|].
  intros j Hj; rewrite output_nth by auto.
  destruct (iter_tickState_inv j s H) as (Ij & _ & _ & Nj & _).
  destruct (sampleTick_exact _ Ij) as (E & B).
  rewrite <- Nj; split; [exact E | exact B].
Qed.

Lemma output_exact_sum_witness :
  let s := setNumOsc (setNote (setNote (resetOsc zeroOsc) 0 0) 1 7) 2 in
  oscInv s /\
  (length (snd (output 3 s)) = 3%nat /\
   forall j, (j < 3)%nat ->
     nth j (snd (output 3 s)) 0 =
       fold_left Z.add (map (slotOut (iter j tickState s)) (seq 0 (Z.to_nat (numOsc s)))) 0 /\
     -127 <= nth j (snd (output 3 s)) 0 <= 127).
Proof.
  intros s.
  assert (H : oscInv s) by osc_inv_concrete.
  exact (conj H (output_exact_sum 3 s H)).
Defined.

(** X9: an active slot whose two edges are both non-empty plays a square
    wave of period [l0 + l1]: from the edge state of sample [r] of its
    waveform, after [k] ticks of [output] it is at sample [(r + k) mod
    (l0 + l1)], and in tick [k] it adds [ampOsc] while the next sample
    falls in edge 0 and [-ampOsc] while it falls in edge 1. *)
Theorem output_square_wave s t l0 l1 r k :
  oscInv s -> (t < Z.to_nat (numOsc s))%nat -> lenOf s t = (l0, l1) ->
  1 <= l0 <= 255 -> 1 <= l1 <= 255 -> 0 <= r < l0 + l1 ->
  phaseOf s t = wavePhase l0 l1 r ->
  phaseOf (iter k tickState s) t = wavePhase l0 l1 ((r + Z.of_nat k) mod (l0 + l1)) /\
  slotOut (iter k tickState s) t =
    (if (r + Z.of_nat k + 1) mod (l0 + l1) <? l0 then ampOsc s else - ampOsc s).
Proof.
  intros H Ht El H0 H1 Hr Ph.
  assert (Hph : forall k, phaseOf (iter k tickState s) t =
                          wavePhase l0 l1 ((r + Z.of_nat k) mod (l0 + l1))).
  { induction k0 as [|k0 IH].
    - simpl; rewrite Z.add_0_r, Z.mod_small by lia; exact Ph.
    - rewrite iter_S_r.
      destruct (iter_tickState_inv k0 s H) as (Ik & Lk & _ & Nk & _).
      destruct (sampleTick_out _ Ik) as (_ & P).
      rewrite P by (rewrite Nk; auto).
      rewrite IH, Lk, El, tickPh_wave by (auto; apply Z.mod_pos_bound; lia).
      rewrite Z.add_mod_idemp_l by lia; f_equal; f_equal; lia. }
  split; [apply Hph|].
  destruct (iter_tickState_inv k s H) as (Ik & Lk & Vk & Nk & Ak).
  unfold slotOut; rewrite Hph, Lk, Vk, El, tickPh_wave by (auto; apply Z.mod_pos_bound; lia).
  rewrite Z.add_mod_idemp_l by lia.
  destruct H as (_ & Hn & Ha & _ & Hv).
  rewrite (Hv t Ht), El; cbn [fst snd].
  replace ((l0 =? 0) || (l1 =? 0)) with false
    by (symmetry; apply orb_false_iff; split; apply Z.eqb_neq; lia).
  rewrite charOf_id
    by (rewrite Ha; split; [|assert (0 <= 127 / numOsc s) by (apply Z.div_pos; lia)];
        [assert (127 / numOsc s <= 127) by (apply Z.div_le_upper_bound; lia)|]; lia).
  unfold wavePhase, sel.
  destruct (_ <? l0); reflexivity.
Qed.

Lemma output_square_wave_witness :
  let s := setPhaseTail (setNote (resetOsc zeroOsc) 0 0) 0 5 in
  oscInv s /\ (0 < Z.to_nat (numOsc s))%nat /\ lenOf s 0 = (180, 180) /\
  1 <= 180 <= 255 /\ 1 <= 180 <= 255 /\ 0 <= 5 < 180 + 180 /\
  phaseOf s 0 = wavePhase 180 180 5 /\
  (phaseOf (iter 500 tickState s) 0 =
     wavePhase 180 180 ((5 + Z.of_nat 500) mod (180 + 180)) /\
   slotOut (iter 500 tickState s) 0 =
     (if (5 + Z.of_nat 500 + 1) mod (180 + 180) <? 180 then ampOsc s else - ampOsc s)).
Proof.
  intros s.
  assert (H1 : oscInv s) by osc_inv_concrete.
  assert (H2 : (0 < Z.to_nat (numOsc s))%nat) by (vm_compute; lia).
  assert (H3 : lenOf s 0 = (180, 180)) by (vm_compute; reflexivity).
  assert (H4 : 1 <= 180 <= 255) by lia.
  assert (H5 : 0 <= 5 < 180 + 180) by lia.
  assert (H6 : phaseOf s 0 = wavePhase 180 180 5) by (vm_compute; reflexivity).
  exact (conj H1 (conj H2 (conj H3 (conj H4 (conj H4 (conj H5 (conj H6
    (output_square_wave s 0 180 180 5 500 H1 H2 H3 H4 H4 H5 H6)))))))).
Defined.

(** X10: [getPhase] does not read back the phase [setPhase] sets: after
    [setPhase( t, phase )] on a slot of edges [l0], [l1], with
    [r = phase mod (l0 + l1)], [getPhase( t )] returns [r + l0] when [r] falls
    in edge 0 and [r - l0] when it falls in edge 1 (so [r] itself only when
    [l0 = 0]). *)
Theorem getPhase_after_setPhase s t phase s' :
  wf s -> (t < MAX_OSC)%nat -> 0 <= phase < 65536 ->
  0 <= fst (lenOf s t) <= 255 -> 0 <= snd (lenOf s t) <= 255 ->
  setPhase s t phase s' ->
  getPhase s' t =
    (let r := phase mod periodOf s t in
     if r <? fst (lenOf s t) then r + fst (lenOf s t) else r - fst (lenOf s t)).
Proof.
  intros Hwf Ht Hph Hl0 Hl1 Hs.
  destruct (setPhase_wave s t phase s' Hwf Ht Hph Hl0 Hl1 Hs) as (HP & Ph & L).
  apply (getPhase_wave s' t (fst (lenOf s t)) (snd (lenOf s t))); auto.
  - rewrite L; destruct (lenOf s t); reflexivity.
  - unfold periodOf in *; apply Z.mod_pos_bound; lia.
Qed.

Lemma getPhase_after_setPhase_witness :
  let s := setNote (resetOsc zeroOsc) 0 0 in
  let s' := setPhaseTail s 0 (1000 mod 360) in
  wf s /\ (0 < MAX_OSC)%nat /\ 0 <= 1000 < 65536 /\
  0 <= fst (lenOf s 0) <= 255 /\ 0 <= snd (lenOf s 0) <= 255 /\
  setPhase s 0 1000 s' /\
  getPhase s' 0 =
    (let r := 1000 mod periodOf s 0 in
     if r <? fst (lenOf s 0) then r + fst (lenOf s 0) else r - fst (lenOf s 0)).
Proof.
  intros s s'.
  assert (H1 : wf s) by (vm_compute; repeat split).
  assert (H2 : (0 < MAX_OSC)%nat) by (unfold MAX_OSC; lia).
  assert (H3 : 0 <= 1000 < 65536) by lia.
  assert (H4 : 0 <= fst (lenOf s 0) <= 255)
    by (replace (fst (lenOf s 0)) with 180 by (vm_compute; reflexivity); lia).
  assert (H5 : 0 <= snd (lenOf s 0) <= 255)
    by (replace (snd (lenOf s 0)) with 180 by (vm_compute; reflexivity); lia).
  assert (H6 : setPhase s 0 1000 s').
  { exists (1000 mod 360); split; [|reflexivity].
    replace (wordOf (periodOf s 0)) with 360 by (vm_compute; reflexivity).
    apply normLoop_exists; lia. }
  exact (conj H1 (conj H2 (conj H3 (conj H4 (conj H5 (conj H6
    (getPhase_after_setPhase s 0 1000 s' H1 H2 H3 H4 H5 H6))))))).
Defined.

(** X11: [setNote( t, n )] touches slot [t] only: every other slot keeps
    its edges, edge values, note and edge state, and [numOsc], [curOsc],
    [ampOsc], [pW] and [freeze] do not change. *)
Theorem setNote_other_slots s t n j :
  wf s -> (t < MAX_OSC)%nat -> j <> t ->
  let s' := setNote s t n in
  lenOf s' j = lenOf s j /\ valOf s' j = valOf s j /\ noteOf s' j = noteOf s j /\
  phaseOf s' j = phaseOf s j /\
  numOsc s' = numOsc s /\ curOsc s' = curOsc s /\ ampOsc s' = ampOsc s /\
  pW s' = pW s /\ freeze s' = freeze s.
Proof. apply setNote_other. Qed.

Lemma setNote_other_slots_witness :
  let s := setNumOsc (setNote (resetOsc zeroOsc) 0 0) 2 in
  wf s /\ (1 < MAX_OSC)%nat /\ 0%nat <> 1%nat /\
  (let s' := setNote s 1 0 in
   lenOf s' 0 = lenOf s 0 /\ valOf s' 0 = valOf s 0 /\ noteOf s' 0 = noteOf s 0 /\
   phaseOf s' 0 = phaseOf s 0 /\
   numOsc s' = numOsc s /\ curOsc s' = curOsc s /\ ampOsc s' = ampOsc s /\
   pW s' = pW s /\ freeze s' = freeze s).
Proof.
  intros s.
  assert (H1 : wf s) by (vm_compute; repeat split).
  assert (H2 : (1 < MAX_OSC)%nat) by (unfold MAX_OSC; lia).
  assert (H3 : 0%nat <> 1%nat) by lia.
  exact (conj H1 (conj H2 (conj H3 (setNote_other_slots s 1 0 0 H1 H2 H3)))).
Defined.

(** X12: the drone on/off double tap ([BUT0_DTAP]) fades a stopped or
    fading-out drone in, reaching [PLAYING] at volume 255 after exactly
    [256 - vol] dynamics updates, and fades a playing or fading-in drone
    out, reaching [STOPPED] at volume 0 after exactly [vol + 1] updates
    ([setVol] modelled as storing its byte argument). *)
Theorem toggleDrone_fade sy :
  0 <= vol sy <= 255 ->
  ((playStatus sy = STOPPED \/ playStatus sy = FADE_OUT) ->
     toggleDrone sy = mkSynth FADE_IN (vol sy) /\
     (forall k, Z.of_nat k < 256 - vol sy ->
        playStatus (iter k dynamics (toggleDrone sy)) = FADE_IN) /\
     iter (Z.to_nat (256 - vol sy)) dynamics (toggleDrone sy) = mkSynth PLAYING 255) /\
  ((playStatus sy = FADE_IN \/ playStatus sy = PLAYING) ->
     toggleDrone sy = mkSynth FADE_OUT (vol sy) /\
     (forall k, Z.of_nat k <= vol sy ->
        playStatus (iter k dynamics (toggleDrone sy)) = FADE_OUT) /\
     iter (Z.to_nat (vol sy + 1)) dynamics (toggleDrone sy) = mkSynth STOPPED 0).
Proof.
  intros Hv; destruct sy as [p v]; cbn [playStatus vol] in *.
  split; intros Hp.
  - assert (E : toggleDrone (mkSynth p v) = mkSynth FADE_IN v)
      by (destruct Hp as [->| ->]; reflexivity).
    rewrite E; split; [reflexivity|]; split.
    + intros k Hk; rewrite fade_in_closed by lia.
      destruct (Z.leb_spec (v + Z.of_nat k) 255); [reflexivity|lia].
    + rewrite fade_in_closed by lia; rewrite Z2Nat.id by lia.
      destruct (Z.leb_spec (v + (256 - v)) 255); [lia|reflexivity].
  - assert (E : toggleDrone (mkSynth p v) = mkSynth FADE_OUT v)
      by (destruct Hp as [->| ->]; reflexivity).
    rewrite E; split; [reflexivity|]; split.
    + intros k Hk; rewrite fade_out_closed by lia.
      destruct (Z.leb_spec 0 (v - Z.of_nat k)); [reflexivity|lia].
    + rewrite fade_out_closed by lia; rewrite Z2Nat.id by lia.
      destruct (Z.leb_spec 0 (v - (v + 1))); [lia|reflexivity].
Qed.

Lemma toggleDrone_fade_witness :
  0 <= vol (mkSynth FADE_OUT 100) <= 255 /\
  (((playStatus (mkSynth FADE_OUT 100) = STOPPED \/
     playStatus (mkSynth FADE_OUT 100) = FADE_OUT) ->
     toggleDrone (mkSynth FADE_OUT 100) = mkSynth FADE_IN (vol (mkSynth FADE_OUT 100)) /\
     (forall k, Z.of_nat k < 256 - vol (mkSynth FADE_OUT 100) ->
        playStatus (iter k dynamics (toggleDrone (mkSynth FADE_OUT 100))) = FADE_IN) /\
     iter (Z.to_nat (256 - vol (mkSynth FADE_OUT 100))) dynamics
       (toggleDrone (mkSynth FADE_OUT 100)) = mkSynth PLAYING 255) /\
   ((playStatus (mkSynth FADE_OUT 100) = FADE_IN \/
     playStatus (mkSynth FADE_OUT 100) = PLAYING) ->
     toggleDrone (mkSynth FADE_OUT 100) = mkSynth FADE_OUT (vol (mkSynth FADE_OUT 100)) /\
     (forall k, Z.of_nat k <= vol (mkSynth FADE_OUT 100) ->
        playStatus (iter k dynamics (toggleDrone (mkSynth FADE_OUT 100))) = FADE_OUT) /\
     iter (Z.to_nat (vol (mkSynth FADE_OUT 100) + 1)) dynamics
       (toggleDrone (mkSynth FADE_OUT 100)) = mkSynth STOPPED 0)).
Proof.
  assert (H : 0 <= vol (mkSynth FADE_OUT 100) <= 255) by (simpl; lia).
  exact (conj H (toggleDrone_fade _ H)).
Defined.

(** X13: [stop()] brings the drone to [STOPPED] within [vol + 1] dynamics
    updates from any state, so the wait loop of [BUT1_DTAP]
    ([while ( playStatus != STOPPED ) console.idle();]) ends, provided
    [dynamics()] keeps being called; a drone not yet stopped ends at
    volume 0. *)
Theorem stop_reaches_stopped sy :
  0 <= vol sy <= 255 ->
  playStatus (iter (Z.to_nat (vol sy + 1)) dynamics (stop sy)) = STOPPED /\
  (playStatus sy <> STOPPED ->
     iter (Z.to_nat (vol sy + 1)) dynamics (stop sy) = mkSynth STOPPED 0).
Proof.
  intros Hv; destruct sy as [p v]; cbn [playStatus vol] in *.
  assert (G : p <> STOPPED ->
              iter (Z.to_nat (v + 1)) dynamics (stop (mkSynth p v)) = mkSynth STOPPED 0).
  { intros Hp.
    replace (stop (mkSynth p v)) with (mkSynth FADE_OUT v) by (destruct p; try reflexivity; congruence).
    rewrite fade_out_closed by lia; rewrite Z2Nat.id by lia.
    destruct (Z.leb_spec 0 (v - (v + 1))); [lia|reflexivity]. }
  split; [|exact G].
  destruct p; try (rewrite G by discriminate; reflexivity).
  unfold stop; simpl; rewrite dynamics_stopped_fixed; reflexivity.
Qed.

Lemma stop_reaches_stopped_witness :
  0 <= vol (mkSynth PLAYING 255) <= 255 /\
  playStatus (iter (Z.to_nat (vol (mkSynth PLAYING 255) + 1)) dynamics
    (stop (mkSynth PLAYING 255))) = STOPPED /\
  (playStatus (mkSynth PLAYING 255) <> STOPPED ->
     iter (Z.to_nat (vol (mkSynth PLAYING 255) + 1)) dynamics
       (stop (mkSynth PLAYING 255)) = mkSynth STOPPED 0).
Proof.
  assert (H : 0 <= vol (mkSynth PLAYING 255) <= 255) by (simpl; lia).
  exact (conj H (stop_reaches_stopped _ H)).
Defined.
